(** * bundler.js: a shallow embedding of the module bundler

    The development follows [src/bundler.js] function by function:
    [readFileGuessExtension], [createAsset], [createGraph], [bundle], the
    top-level script, and the loader runtime that [bundle] emits.

    - The process-wide counter [let ID = 0] is the state of a small
      state-and-exception monad [M].
    - The Node and Babel modules the script imports ([fs], [path], [babylon],
      [@babel/traverse], [@babel/core]) and the built-in [JSON.stringify] are
      the fields of the class [Host].
    - The [for ... of] loop of [createGraph] grows the array it iterates and
      need not terminate (two files importing each other), hence the fuel. *)

From Stdlib Require Import Ascii.
From stdpp Require Import base list strings gmap pretty.

#[local] Set Warnings "-clear-no-such-hyp".

Local Open Scope string_scope.
Local Open Scope list_scope.
Local Open Scope nat_scope.

(** ** Exceptions and the process monad *)

(** What the script can throw.  None of it is caught anywhere outside
    [readFileGuessExtension]. *)
Inductive exn : Type :=
  | NullContent
    (** [babylon.parse(null, ...)]: the parser dereferences its input, which
        throws a [TypeError]; this is how a failed load surfaces. *)
  | SyntaxError (msg : string)
    (** [babylon.parse] on text that is not a module. *)
  | TraverseError (msg : string)
    (** [traverse] on a tree it rejects (a name declared twice, say). *)
  | TransformError (msg : string)
    (** [babel.transformFromAstSync]. *).

#[global] Instance exn_eq_dec : EqDecision exn.
Proof. solve_decision. Defined.

(** The result of running a piece of the script from a given value of [ID]:
    it returns or throws (both with the new value of [ID]), or the loop is
    still running when the fuel is spent. *)
Inductive outcome (A : Type) : Type :=
  | Returned (a : A) (ID : nat)
  | Threw (e : exn) (ID : nat)
  | Running.
Arguments Returned {A} a ID.
Arguments Threw {A} e ID.
Arguments Running {A}.

Definition M (A : Type) : Type := nat → outcome A.

#[global] Instance M_ret : MRet M := λ A a ID, Returned a ID.
#[global] Instance M_bind : MBind M := λ A B f m ID,
  match m ID with
  | Returned a ID' => f a ID'
  | Threw e ID' => Threw e ID'
  | Running => Running
  end.

Definition throw {A} (e : exn) : M A := λ ID, Threw e ID.

(** [ID++] *)
Definition next_ID : M nat := λ ID, Returned ID (S ID).

(** [xs.forEach(f)] where the callback updates a local store [S]. *)
Fixpoint forEach {A S : Type} (f : A → S → M S) (xs : list A) (s : S) : M S :=
  match xs with
  | [] => mret s
  | x :: xs' => s' ← f x s; forEach f xs' s'
  end.

(** ** Plain objects used as string-keyed tables

    [asset.mapping] is a plain object [{}] filled by [mapping[k] = v].  Own
    properties are kept in insertion order (the order [JSON.stringify] sees).
    The key [__proto__] is special: the assignment reaches the accessor
    inherited from [Object.prototype], whose setter ignores a number, so no own
    property is created. *)
Definition jsobject : Type := list (string * nat).

Definition proto_key : string := "__proto__".

Fixpoint own_set (k : string) (v : nat) (o : jsobject) : jsobject :=
  match o with
  | [] => [(k, v)]
  | (k', v') :: o' =>
      if decide (k = k') then (k, v) :: o' else (k', v') :: own_set k v o'
  end.

(** [o[k] = v] *)
Definition obj_set (k : string) (v : nat) (o : jsobject) : jsobject :=
  if decide (k = proto_key) then o else own_set k v o.

(** The own property [k] of [o], if any. *)
Fixpoint own_get (k : string) (o : jsobject) : option nat :=
  match o with
  | [] => None
  | (k', v) :: o' => if decide (k = k') then Some v else own_get k o'
  end.

(** [Object.keys(o)] *)
Definition keys (o : jsobject) : list string := o.*1.

(** ** The asset record *)

Record Asset : Type := mkAsset {
  id : nat;
  filename : string;
  dependencies : list string;
  code : string;
  mapping : option jsobject   (** [None]: the property has not been set *)
}.

(** [asset.mapping = {}] *)
Definition reset_mapping (a : Asset) : Asset :=
  mkAsset (id a) (filename a) (dependencies a) (code a) (Some []).

(** [asset.mapping[k] = v]; [createGraph] only does this after
    [asset.mapping = {}]. *)
Definition assign_mapping (k : string) (v : nat) (a : Asset) : Asset :=
  mkAsset (id a) (filename a) (dependencies a) (code a)
          (obj_set k v <$> mapping a).

(** ** The host: what the script imports *)

Class Host : Type := {
  (** the syntax trees of [babylon] *)
  ast : Type;
  (** [fs.readdirSync(dir)]; [None] when it throws *)
  readdirSync : string → option (list string);
  (** [fs.readFileSync(file, "utf-8")]; [None] when it throws *)
  readFileSync : string → option string;
  (** [path.dirname(p)] *)
  path_dirname : string → string;
  (** [path.parse(p).base] *)
  path_base : string → string;
  (** [path.join(a, b)] *)
  path_join : string → string → string;
  (** [babylon.parse(text, {sourceType: "module"})] on a string: a tree, or
      the message of the error it throws *)
  babylon_parse : string → string + ast;
  (** [traverse(ast, {ImportDeclaration ...})]: the [node.source.value] of the
      [ImportDeclaration] nodes, in the order they are visited, or the message
      of the error it throws *)
  import_sources : ast → string + list string;
  (** [babel.transformFromAstSync(ast, null, {presets: [...]}).code], or the
      message of the error it throws *)
  transformFromAstSync : ast → string + string;
  (** [JSON.stringify(o)] of a table of numbers *)
  JSON_stringify : jsobject → string
}.

Section Bundler.
Context `{Host}.

(** ** [readFileGuessExtension] (lines 16-28) *)

(** [files.find((x) => x.indexOf(name) === 0)] *)
Definition find_prefixed (name : string) (files : list string) : option string :=
  List.find (String.prefix name) files.

(** [dir + "/" + found]: an [undefined] operand is converted to the text
    "undefined". *)
Definition found_to_string (found : option string) : string :=
  match found with
  | Some x => x
  | None => "undefined"
  end.

Definition readFileGuessExtension (pathWithNoExtension : string) : option string :=
  match readdirSync (path_dirname pathWithNoExtension) with
  | None => None                                   (* catch (e) { return null } *)
  | Some files =>
      let name := path_base pathWithNoExtension in
      let found := find_prefixed name files in
      readFileSync
        (path_dirname pathWithNoExtension +:+ "/" +:+ found_to_string found)
  end.

(** ** [createAsset] (lines 40-67) *)

(** [babylon.parse(content, ...)] where [content] may be [null] *)
Definition parse (content : option string) : M ast :=
  match content with
  | None => throw NullContent
  | Some text =>
      match babylon_parse text with
      | inl msg => throw (SyntaxError msg)
      | inr tree => mret tree
      end
  end.

(** [traverse(ast, ...)], returning what the visitor has pushed *)
Definition traverse (tree : ast) : M (list string) :=
  match import_sources tree with
  | inl msg => throw (TraverseError msg)
  | inr sources => mret sources
  end.

Definition transform (tree : ast) : M string :=
  match transformFromAstSync tree with
  | inl msg => throw (TransformError msg)
  | inr code => mret code
  end.

Definition createAsset (filename : string) : M Asset :=
  let content := readFileGuessExtension filename in
  tree ← parse content;
  dependencies ← traverse tree;
  id ← next_ID;
  code ← transform tree;
  mret (mkAsset id filename dependencies code None).

(** ** [createGraph] (lines 80-102) *)

(** The body of the [forEach] callback, for the asset at index [i] of the
    queue: the child is built, its id is written into the parent's mapping
    and it is pushed onto the queue. *)
Definition visit (i : nat) (dirname relativePath : string)
    (queue : list Asset) : M (list Asset) :=
  let absolutePath := path_join dirname relativePath in
  child ← createAsset absolutePath;
  mret (alter (assign_mapping relativePath (id child)) i queue ++ [child]).

(** One turn of [for (const asset of queue)], on the asset at index [i]. *)
Definition turn (i : nat) (asset : Asset) (queue : list Asset) : M (list Asset) :=
  let dirname := path_dirname (filename asset) in
  forEach (visit i dirname) (dependencies asset) (<[i := reset_mapping asset]> queue).

(** The array iterator of [for ... of] reads [queue[i]] until [i] reaches the
    current length. *)
Fixpoint for_of (fuel : nat) (i : nat) (queue : list Asset) : M (list Asset) :=
  match fuel with
  | 0 => λ _, Running
  | S fuel' =>
      match queue !! i with
      | None => mret queue
      | Some asset => queue' ← turn i asset queue; for_of fuel' (S i) queue'
      end
  end.

Definition createGraph (fuel : nat) (entry : string) : M (list Asset) :=
  mainAsset ← createAsset entry;
  for_of fuel 0 [mainAsset].

(** The queue after the first [k] turns of the loop (all of them, if the
    loop ends sooner). *)
Fixpoint turns (k : nat) (i : nat) (queue : list Asset) : M (list Asset) :=
  match k with
  | 0 => mret queue
  | S k' =>
      match queue !! i with
      | None => mret queue
      | Some asset => queue' ← turn i asset queue; turns k' (S i) queue'
      end
  end.

Definition queue_after (k : nat) (entry : string) : M (list Asset) :=
  mainAsset ← createAsset entry;
  turns k 0 [mainAsset].

(** Two builds, one after the other, in the same process. *)
Definition createGraph_twice (fuel : nat) (entry : string) : M (list Asset * list Asset) :=
  first ← createGraph fuel entry;
  second ← createGraph fuel entry;
  mret (first, second).

(** ** [bundle] (lines 104-137) *)

(** [${JSON.stringify(module.mapping)}]: [JSON.stringify(undefined)] is
    [undefined], which the template prints as such. *)
Definition stringify_mapping (m : option jsobject) : string :=
  match m with
  | Some o => JSON_stringify o
  | None => "undefined"
  end.

(** The text added to [modules] for one asset. *)
Definition module_entry (module : Asset) : string :=
  pretty (id module) +:+ ": [
        function(require, module, exports) {
          " +:+ code module +:+ "
        },
        " +:+ stringify_mapping (mapping module) +:+ "
    ],".

Definition runtime_head : string := "
    (function(modules) {
      function require(id) {
        const [fn, mapping] = modules[id];

        function localRequire(relativePath) {
          return require(mapping[relativePath]);
        }

        const module = { exports: {} };

        fn(localRequire, module, module.exports);

        return module.exports;
      }

      require(0);
    })({".

Definition runtime_tail : string := "})
  ".

Definition bundle (graph : list Asset) : string :=
  let modules := foldl (λ modules module, modules +:+ module_entry module) "" graph in
  runtime_head +:+ modules +:+ runtime_tail.

(** [bundle] as a call made by the process: it reads and writes no global. *)
Definition bundle_call (graph : list Asset) : M string := mret (bundle graph).

(** Two calls of [bundle] on the same graph. *)
Definition bundle_twice (graph : list Asset) : M (string * string) :=
  first ← bundle_call graph;
  second ← bundle_call graph;
  mret (first, second).

(** ** The script (lines 139-143)

    The value returned is the text handed to [console.log]. *)
Definition script (fuel : nat) : M string :=
  graph ← createGraph fuel "./entry.js";
  result ← bundle_call graph;
  mret result.

End Bundler.

(** ** The loader runtime emitted by [bundle]

    The text of [runtime_head] is a program of its own.  Its two functions,
    [require] and [localRequire], are embedded below over an abstract account
    of what a module body does when it is called. *)

Inductive value : Type :=
  | VUndefined
  | VNumber (n : nat)
  | VString (s : string)
  | VObject (l : nat).

(** The behaviour of a module body [function(require, module, exports) {...}]:
    the calls it makes to its [require] argument, the properties it reads and
    writes, and what it prints. *)
Inductive rt_exn : Type :=
  | NotIterable     (** [TypeError]: [const [fn, mapping] = undefined] *)
  | NoProperties    (** [TypeError]: a property of [undefined] is read, set or
                        deleted, a property of a number or a string is set,
                        or an own property of a string is deleted *)
  | Thrown (what : string)
                    (** what a body throws by itself ([throw], a
                        [ReferenceError], ...) *).

Inductive body : Type :=
  | Done
    (** the body returns *)
  | Forever
    (** the body never returns (a loop) *)
  | Throw (e : rt_exn)
    (** the body throws *)
  | Try (block : body) (handler : rt_exn → body) (k : body)
    (** [try { block } catch (e) { handler }] and then [k] *)
  | Require (relativePath : string) (k : value → body)
    (** [require(relativePath)] and then [k] on its value *)
  | GetProp (o : value) (p : string) (k : value → body)
    (** [o[p]] *)
  | SetProp (o : value) (p : string) (v : value) (k : body)
    (** [o[p] = v], in strict code *)
  | DelProp (o : value) (p : string) (k : body)
    (** [delete o[p]], in strict code *)
  | Log (line : string) (k : body)
    (** [console.log(line)] *).

(** The state of the running bundle.  [executed] is a history variable: the
    ids whose [fn] has been called, oldest first. *)
Record realm : Type := mkRealm {
  heap : gmap nat (gmap string value);
  next : nat;
  console : list string;
  executed : list nat
}.

Definition realm0 : realm := mkRealm ∅ 0 [] [].

(** An object literal: a new object at the next free location. *)
Definition alloc (props : gmap string value) (σ : realm) : nat * realm :=
  (next σ, mkRealm (<[next σ := props]> (heap σ)) (S (next σ)) (console σ) (executed σ)).

Definition read (l : nat) (p : string) (σ : realm) : value :=
  default VUndefined (heap σ !! l ≫= lookup p).

Definition write (l : nat) (p : string) (v : value) (σ : realm) : realm :=
  mkRealm (alter (insert p v) l (heap σ)) (next σ) (console σ) (executed σ).

Definition remove (l : nat) (p : string) (σ : realm) : realm :=
  mkRealm (alter (delete p) l (heap σ)) (next σ) (console σ) (executed σ).

(** The own properties of a string: its [length] and its characters. *)
Definition string_prop (s p : string) : option value :=
  if decide (p = "length") then Some (VNumber (String.length s))
  else (λ i, VString (String.substring i 1 s)) <$>
       List.find (λ i, bool_decide (pretty i = p)) (seq 0 (String.length s)).

Definition print (line : string) (σ : realm) : realm :=
  mkRealm (heap σ) (next σ) (console σ ++ [line]) (executed σ).

Definition entered (i : nat) (σ : realm) : realm :=
  mkRealm (heap σ) (next σ) (console σ) (executed σ ++ [i]).

(** How a call ends: by returning, by throwing, never because a body loops
    ([RtForever]), or not within the nesting of calls allowed ([RtRunning]). *)
Inductive rt_outcome (A : Type) : Type :=
  | RtReturned (a : A) (σ : realm)
  | RtThrew (e : rt_exn) (σ : realm)
  | RtForever
  | RtRunning.
Arguments RtReturned {A} a σ.
Arguments RtThrew {A} e σ.
Arguments RtForever {A}.
Arguments RtRunning {A}.

(** Running a body, given the [localRequire] it was called with. *)
Fixpoint exec (localRequire : string → realm → rt_outcome value)
    (b : body) (σ : realm) : rt_outcome unit :=
  match b with
  | Done => RtReturned () σ
  | Forever => RtForever
  | Throw e => RtThrew e σ
  | Try block handler k =>
      match exec localRequire block σ with
      | RtReturned _ σ' => exec localRequire k σ'
      | RtThrew e σ' =>
          match exec localRequire (handler e) σ' with
          | RtReturned _ σ'' => exec localRequire k σ''
          | RtThrew e' σ'' => RtThrew e' σ''
          | RtForever => RtForever
          | RtRunning => RtRunning
          end
      | RtForever => RtForever
      | RtRunning => RtRunning
      end
  | Require relativePath k =>
      match localRequire relativePath σ with
      | RtReturned v σ' => exec localRequire (k v) σ'
      | RtThrew e σ' => RtThrew e σ'
      | RtForever => RtForever
      | RtRunning => RtRunning
      end
  | GetProp (VObject l) p k => exec localRequire (k (read l p σ)) σ
  | GetProp VUndefined _ _ => RtThrew NoProperties σ
  | GetProp (VNumber _) _ k => exec localRequire (k VUndefined) σ
  | GetProp (VString s) p k =>
      exec localRequire (k (default VUndefined (string_prop s p))) σ
  | SetProp (VObject l) p v k => exec localRequire k (write l p v σ)
  | SetProp _ _ _ _ => RtThrew NoProperties σ
  | DelProp (VObject l) p k => exec localRequire k (remove l p σ)
  | DelProp VUndefined _ _ => RtThrew NoProperties σ
  | DelProp (VNumber _) _ k => exec localRequire k σ
  | DelProp (VString s) p k =>
      match string_prop s p with
      | Some _ => RtThrew NoProperties σ
      | None => exec localRequire k σ
      end
  | Log line k => exec localRequire k (print line σ)
  end.

(** The body never assigns or deletes a property called [exports]: in
    particular it does not replace [module.exports]. *)
Fixpoint keeps_exports (b : body) : Prop :=
  match b with
  | Done | Forever | Throw _ => True
  | Try block handler k =>
      keeps_exports block ∧ (∀ e, keeps_exports (handler e)) ∧ keeps_exports k
  | Require _ k => ∀ v, keeps_exports (k v)
  | GetProp _ _ k => ∀ v, keeps_exports (k v)
  | SetProp _ p _ k => p ≠ "exports" ∧ keeps_exports k
  | DelProp _ p k => p ≠ "exports" ∧ keeps_exports k
  | Log _ k => keeps_exports k
  end.

(** The body makes no call of [require]. *)
Fixpoint requires_nothing (b : body) : Prop :=
  match b with
  | Done | Forever | Throw _ => True
  | Try block handler k =>
      requires_nothing block ∧ (∀ e, requires_nothing (handler e)) ∧ requires_nothing k
  | Require _ _ => False
  | GetProp _ _ k => ∀ v, requires_nothing (k v)
  | SetProp _ _ _ k => requires_nothing k
  | DelProp _ _ k => requires_nothing k
  | Log _ k => requires_nothing k
  end.

(** [localRequire], closed over the [mapping] of its module and calling back
    into [require]. *)
Definition localRequire_of (require : option nat → realm → rt_outcome value)
    (mapping : option jsobject) (relativePath : string) (σ : realm) : rt_outcome value :=
  match mapping with
  | None => RtThrew NoProperties σ
  | Some mapping => require (own_get relativePath mapping) σ
  end.

(** Every object of the heap was allocated: its location is below [next]. *)
Definition allocated (σ : realm) : Prop :=
  ∀ l, is_Some (heap σ !! l) → l < next σ.

(** From [σ] to [σ']: objects were allocated, bodies were entered; nothing
    of either is undone. *)
Definition grows (σ σ' : realm) : Prop :=
  allocated σ' ∧ next σ ≤ next σ' ∧ ∃ more, executed σ' = executed σ ++ more.

(** The call has ended, by returning or by throwing, in the state [σ']. *)
Definition ends_in {A} (o : rt_outcome A) (σ' : realm) : Prop :=
  match o with
  | RtReturned _ σ | RtThrew _ σ => σ = σ'
  | RtForever | RtRunning => False
  end.

(** The number of times the body of module [i] has been entered. *)
Definition runs (i : nat) (σ : realm) : nat :=
  length (filter (λ j, j = i) (executed σ)).

Section Runtime.

(** What the text of a module's [code] does, as the body of
    [function(require, module, exports)] applied to the module and exports
    objects. *)
Variable sem : string → nat → nat → body.

(** The registry literal [{${modules}}]: of two entries with the same key
    the later one stays. *)
Definition modules_lookup (graph : list Asset) (i : nat) : option Asset :=
  List.find (λ a, bool_decide (id a = i)) (reverse graph).

(** [require(id)].  The argument is [None] when it is not a number: the
    [undefined] of a specifier with no own entry in [mapping] (or the
    inherited member of a name such as [toString]), which is no key of
    [modules].  The fuel bounds the depth of nested calls. *)
Fixpoint require (fuel : nat) (graph : list Asset) (i : option nat)
    (σ : realm) : rt_outcome value :=
  match fuel with
  | 0 => RtRunning
  | S fuel' =>
      match i ≫= modules_lookup graph with
      | None => RtThrew NotIterable σ
      | Some entry =>
          let localRequire := localRequire_of (require fuel' graph) (mapping entry) in
          let '(exports, σ) := alloc ∅ σ in
          let '(module, σ) := alloc {[ "exports" := VObject exports ]} σ in
          match exec localRequire (sem (code entry) module exports)
                     (entered (id entry) σ) with
          | RtReturned _ σ' => RtReturned (read module "exports" σ') σ'
          | RtThrew e σ' => RtThrew e σ'
          | RtForever => RtForever
          | RtRunning => RtRunning
          end
      end
  end.

(** Executing the bundle: [require(0)]. *)
Definition run_bundle (fuel : nat) (graph : list Asset) : rt_outcome value :=
  require fuel graph (Some 0) realm0.

End Runtime.

(** ** The graph builder as the specification words it

    A queue of assets still to be processed and the graph of all assets built
    so far.  The two hold the same objects: giving a queued asset its mapping
    shows in the graph, which [set_mapping_of] does through the asset's id. *)
Section GraphBuilder.
Context `{Host}.

Definition with_mapping (a : Asset) (table : jsobject) : Asset :=
  mkAsset (id a) (filename a) (dependencies a) (code a) (Some table).

Definition set_mapping_of (asset : Asset) (table : jsobject)
    (graph : list Asset) : list Asset :=
  (λ a, if decide (id a = id asset) then with_mapping a table else a) <$> graph.

(** For each specifier, in order: resolve it against [dirname], build a fresh
    asset for the target, record [mapping[specifier] = child.id]; the children
    are returned in the order they are to be enqueued. *)
Fixpoint build_children (dirname : string) (specifiers : list string)
    (table : jsobject) : M (jsobject * list Asset) :=
  match specifiers with
  | [] => mret (table, [])
  | s :: rest =>
      child ← createAsset (path_join dirname s);
      r ← build_children dirname rest (obj_set s (id child) table);
      mret (r.1, child :: r.2)
  end.

Fixpoint spec_loop (fuel : nat) (queue graph : list Asset) : M (list Asset) :=
  match fuel with
  | 0 => λ _, Running
  | S fuel' =>
      match queue with
      | [] => mret graph
      | asset :: queue' =>
          r ← build_children (path_dirname (filename asset)) (dependencies asset) [];
          spec_loop fuel' (queue' ++ r.2) (set_mapping_of asset r.1 graph ++ r.2)
      end
  end.

Definition spec_build_graph (fuel : nat) (entry : string) : M (list Asset) :=
  entryAsset ← createAsset entry;
  spec_loop fuel [entryAsset] [entryAsset].

(** ** Vocabulary for the statements about a graph *)

(** The file at [p] loads, parses to a tree with the import specifiers
    [specifiers], and transforms to [code]. *)
Definition compiles (p : string) (specifiers : list string) (code : string) : Prop :=
  ∃ text tree,
    readFileGuessExtension p = Some text ∧
    babylon_parse text = inr tree ∧
    import_sources tree = inr specifiers ∧
    transformFromAstSync tree = inr code.

(** An asset holds what [createAsset] computes from its own file. *)
Definition built (a : Asset) : Prop :=
  compiles (filename a) (dependencies a) (code a).

(** The number of specifiers of each asset, and the index in the graph at
    which the children of the asset at index [k] start: after the entry and
    the children of the assets before it. *)
Definition widths (q : list Asset) : list nat :=
  (λ a, length (dependencies a)) <$> q.

Definition offset (q : list Asset) (k : nat) : nat :=
  S (sum_list (take k (widths q))).

(** The table after [mapping[s] = first], [mapping[s'] = first + 1], ... *)
Fixpoint fill (specifiers : list string) (first : nat) (table : jsobject) : jsobject :=
  match specifiers with
  | [] => table
  | s :: rest => fill rest (S first) (obj_set s first table)
  end.

(** The index of the last occurrence of [s]. *)
Fixpoint last_index (s : string) (l : list string) : option nat :=
  match l with
  | [] => None
  | x :: l' =>
      match last_index s l' with
      | Some j => Some (S j)
      | None => if decide (x = s) then Some 0 else None
      end
  end.

(** The asset [a] at index [k] of [q] has been processed: its mapping is
    filled with the ids of its children, which sit in [q] from [offset q k]
    on, one per specifier, each built for the specifier joined to the
    directory of [a]. *)
Definition family (first : nat) (q : list Asset) (k : nat) (a : Asset) : Prop :=
  mapping a = Some (fill (dependencies a) (first + offset q k) []) ∧
  ∀ j s, dependencies a !! j = Some s →
    ∃ c, q !! (offset q k + j) = Some c ∧
         filename c = path_join (path_dirname (filename a)) s.

(** The loop invariant of [createGraph] before the turn of index [i];
    [first] is the value of [ID] when the build started. *)
Record invariant (first i : nat) (q : list Asset) : Prop := {
  inv_ids : id <$> q = seq first (length q);
  inv_bound : i ≤ length q;
  inv_length : length q = offset q i;
  inv_built : Forall built q;
  inv_done : ∀ k a, k < i → q !! k = Some a → family first q k a;
  inv_todo : ∀ k a, i ≤ k → q !! k = Some a → mapping a = None
}.

(** [s] occurs in [t]. *)
Definition occurs_in (s t : string) : Prop := ∃ pre post, t = pre +:+ s +:+ post.

End GraphBuilder.

(** ** A small host, for running the embedding

    A disk, POSIX paths, and a line-oriented stand-in for the parser and for
    Babel: enough to execute every function above on concrete projects. *)
Module Demo.

(** Each directory with its entries in listing order; an entry without text
    cannot be read as a file (a sub-directory, say). *)
Definition disk : Type := list (string * list (string * option string)).

Definition slash : ascii := "/"%char.

Definition readdir (d : disk) (dir : string) : option (list string) :=
  (λ entry, entry.2.*1) <$> List.find (λ entry, bool_decide (entry.1 = dir)) d.

Definition readFile (d : disk) (file : string) : option string :=
  let files := flat_map (λ entry, (λ e, (entry.1 +:+ "/" +:+ e.1, e.2)) <$> entry.2) d in
  List.find (λ f, bool_decide (f.1 = file)) files ≫= snd.

Fixpoint split_on (c : ascii) (s : string) : list string :=
  match s with
  | EmptyString => [EmptyString]
  | String a s' =>
      if decide (a = c) then EmptyString :: split_on c s'
      else match split_on c s' with
           | seg :: segs => String a seg :: segs
           | [] => [String a EmptyString]
           end
  end.

Fixpoint join_with (sep : string) (segs : list string) : string :=
  match segs with
  | [] => EmptyString
  | [seg] => seg
  | seg :: segs' => seg +:+ sep +:+ join_with sep segs'
  end.

Definition starts_with_slash (p : string) : bool :=
  match p with String a _ => bool_decide (a = slash) | EmptyString => false end.

Definition ends_with_slash (p : string) : bool :=
  match reverse (String.list_ascii_of_string p) with a :: _ => bool_decide (a = slash) | [] => false end.

(** [normalizeString]: the segments kept so far are in [kept], last first. *)
Fixpoint collapse (allowAbove : bool) (segs kept : list string) : list string :=
  match segs with
  | [] => reverse kept
  | seg :: segs' =>
      if decide (seg = EmptyString) then collapse allowAbove segs' kept
      else if decide (seg = ".") then collapse allowAbove segs' kept
      else if decide (seg = "..") then
        match kept with
        | top :: kept' =>
            if decide (top = "..") then collapse allowAbove segs' (seg :: kept)
            else collapse allowAbove segs' kept'
        | [] => collapse allowAbove segs' (if allowAbove then [seg] else [])
        end
      else collapse allowAbove segs' (seg :: kept)
  end.

(** [path.posix.normalize] *)
Definition normalize (p : string) : string :=
  if decide (p = EmptyString) then "." else
  let absolute := starts_with_slash p in
  let trailing := ends_with_slash p in
  let q := join_with "/" (collapse (negb absolute) (split_on slash p) []) in
  if decide (q = EmptyString) then
    (if absolute then "/" else if trailing then "./" else ".")
  else
    (if absolute then "/" else EmptyString) +:+ q +:+ (if trailing then "/" else EmptyString).

(** [path.posix.join] of two arguments *)
Definition join (a b : string) : string :=
  let joined :=
    if decide (a = EmptyString) then b
    else if decide (b = EmptyString) then a
    else a +:+ "/" +:+ b in
  if decide (joined = EmptyString) then "." else normalize joined.

Definition drop_while {A} (f : A → bool) : list A → list A :=
  fix go l := match l with x :: l' => if f x then go l' else l | [] => [] end.

Definition take_while {A} (f : A → bool) : list A → list A :=
  fix go l := match l with x :: l' => if f x then x :: go l' else [] | [] => [] end.

Definition is_slash (a : ascii) : bool := bool_decide (a = slash).

(** [path.posix.dirname] *)
Definition dirname (p : string) : string :=
  let upto_slash :=
    reverse (drop_while (λ a, negb (is_slash a))
               (drop_while is_slash (reverse (String.list_ascii_of_string p)))) in
  let e := length upto_slash - 1 in
  if decide (length upto_slash ≤ 1) then (if starts_with_slash p then "/" else ".")
  else if starts_with_slash p && bool_decide (e = 1) then "//"
  else String.string_of_list_ascii (take e upto_slash).

(** [path.posix.parse(p).base] *)
Definition base (p : string) : string :=
  String.string_of_list_ascii
    (reverse (take_while (λ a, negb (is_slash a))
                (drop_while is_slash (reverse (String.list_ascii_of_string p))))).

(** The toy module language: one statement per line; [import s] is an import
    declaration; a line [@] does not parse; a line [&] parses but cannot be
    traversed; a line [%] can be traversed but cannot be transformed. *)
Definition newline : ascii := ascii_of_nat 10.

Definition lines (text : string) : list string := split_on newline text.

Definition tree : Type := list string.

Definition after (prefix line : string) : option string :=
  if String.prefix prefix line
  then Some (String.substring (String.length prefix)
                              (String.length line - String.length prefix) line)
  else None.

Definition parse_text (text : string) : string + tree :=
  if bool_decide ("@" ∈ lines text) then inl "Unexpected token" else inr (lines text).

Definition sources (t : tree) : string + list string :=
  if bool_decide ("&" ∈ t) then inl "Duplicate declaration"
  else inr (omap (after "import ") t).

Definition transform_line (line : string) : string :=
  match after "import " line with
  | Some s => "require " +:+ s
  | None => line
  end.

Definition transform_tree (t : tree) : string + string :=
  if bool_decide ("%" ∈ t) then inl "Unsupported syntax"
  else inr (join_with (String newline EmptyString) (transform_line <$> t)).

Definition quote : string := String (ascii_of_nat 34) EmptyString.

(** [JSON.stringify] on tables whose keys need no escape and are not
    array indices. *)
Definition stringify (o : jsobject) : string :=
  "{" +:+ join_with "," ((λ kv, quote +:+ kv.1 +:+ quote +:+ ":" +:+ pretty kv.2) <$> o) +:+ "}".

Definition host (d : disk) : Host := {|
  ast := tree;
  readdirSync := readdir d;
  readFileSync := readFile d;
  path_dirname := dirname;
  path_base := base;
  path_join := join;
  babylon_parse := parse_text;
  import_sources := sources;
  transformFromAstSync := transform_tree;
  JSON_stringify := stringify
|}.

(** What transformed toy code does when run: [require s] calls [require],
    [try s] does so inside a [try] with an empty [catch], [log t] prints,
    [export n] sets [exports.n = 1], [replace] sets [module.exports = 7],
    [loop] runs for ever, [throw] throws; any other line does nothing. *)
Fixpoint sem_lines (ls : list string) (module exports : nat) : body :=
  match ls with
  | [] => Done
  | l :: ls' =>
      let rest := sem_lines ls' module exports in
      match after "require " l, after "log " l, after "export " l, after "try " l with
      | Some s, _, _, _ => Require s (λ _, rest)
      | _, Some t, _, _ => Log t rest
      | _, _, Some n, _ => SetProp (VObject exports) n (VNumber 1) rest
      | _, _, _, Some s => Try (Require s (λ _, Done)) (λ _, Done) rest
      | _, _, _, _ =>
          if decide (l = "replace")
          then SetProp (VObject module) "exports" (VNumber 7) rest
          else if decide (l = "loop") then Forever
          else if decide (l = "throw") then Throw (Thrown "thrown")
          else rest
      end
  end.

Definition sem (code : string) : nat → nat → body := sem_lines (lines code).

Definition text (ls : list string) : string := join_with (String newline EmptyString) ls.

(** entry -> a -> b *)
Definition chain : disk :=
  [(".", [("a.js", Some (text ["import ./b"; "log a"; "export x"]));
          ("b.js", Some (text ["log b"]));
          ("entry.js", Some (text ["import ./a"; "log entry"]))])].

(** [a] imports a file that is not there. *)
Definition broken : disk :=
  [(".", [("a.js", Some (text ["import ./missing"; "log a"]));
          ("entry.js", Some (text ["import ./a"; "log entry"]))])].

(** Two specifiers for the same file. *)
Definition diamond : disk :=
  [(".", [("entry.js", Some (text ["import ./shared"; "import ./lib/../shared"]));
          ("shared.js", Some (text ["log shared"]))])].

(** The same specifier twice. *)
Definition repeated : disk :=
  [(".", [("entry.js", Some (text ["import ./a"; "import ./a"]));
          ("a.js", Some (text ["log a"]))])].

(** An import of a file called [__proto__]. *)
Definition proto : disk :=
  [(".", [("__proto__.js", Some (text ["log proto"]));
          ("entry.js", Some (text ["import __proto__"]))])].

(** The entry calls [require] on a specifier it does not import. *)
Definition ghost : disk :=
  [(".", [("entry.js", Some (text ["require ./ghost"; "log unreachable"]))])].

(** The entry imports [./a] once and calls [require] on it a second time. *)
Definition rerun : disk :=
  [(".", [("a.js", Some (text ["log a"; "export x"]));
          ("entry.js", Some (text ["import ./a"; "require ./a"]))])].

(** A sub-directory [a] listed before the file [a.js]. *)
Definition shadowed : disk :=
  [(".", [("a", None); ("a.js", Some (text ["log a"]))])].

(** No entry starts with [a], and there is a file called [undefined]. *)
Definition stray : disk :=
  [(".", [("b.js", Some (text ["log b"])); ("undefined", Some (text ["log stray"]))])].

(** The entry imports itself. *)
Definition cycle : disk :=
  [(".", [("entry.js", Some (text ["import ./entry.js"; "log again"]))])].

(** The root directory. *)
Definition root : disk :=
  [("/", [("boot.js", Some (text ["log boot"])); ("etc", None)])].

(** [a] does not parse; [b] parses and cannot be transformed; [dup] parses
    and cannot be traversed. *)
Definition faulty : disk :=
  [(".", [("a.js", Some (text ["@"]));
          ("b.js", Some (text ["%"]));
          ("entry.js", Some (text ["import ./b"; "import ./a"]));
          ("main.js", Some (text ["import ./leaf"; "import ./a"; "import ./b"]));
          ("leaf.js", Some (text ["log leaf"]));
          ("dup.js", Some (text ["&"]));
          ("top.js", Some (text ["import ./leaf"; "import ./dup"]))])].

(** A file without imports. *)
Definition single : disk :=
  [(".", [("entry.js", Some (text ["log only"; "export x"]))])].

(** The entry imports a file that is not there, in a directory that holds a
    file called [undefined]. *)
Definition stray_import : disk :=
  [(".", [("entry.js", Some (text ["import ./missing"; "log entry"]));
          ("undefined", Some (text ["log stray"]))])].

(** The entry assigns [module.exports]. *)
Definition replaced : disk :=
  [(".", [("entry.js", Some (text ["replace"]))])].

(** An import of a file called [__proto__], twice. *)
Definition proto_twice : disk :=
  [(".", [("__proto__.js", Some (text ["log proto"]));
          ("entry.js", Some (text ["import __proto__"; "import __proto__"]))])].

(** The graphs of some of these projects, as [createGraph] returns them. *)
Definition chain_assets : list Asset :=
  [mkAsset 0 "./entry.js" ["./a"] (text ["require ./a"; "log entry"]) (Some [("./a", 1)]);
   mkAsset 1 "a" ["./b"] (text ["require ./b"; "log a"; "export x"]) (Some [("./b", 2)]);
   mkAsset 2 "b" [] (text ["log b"]) (Some [])].

Definition diamond_entry : Asset :=
  mkAsset 0 "./entry.js" ["./shared"; "./lib/../shared"]
          (text ["require ./shared"; "require ./lib/../shared"])
          (Some [("./shared", 1); ("./lib/../shared", 2)]).

Definition diamond_assets : list Asset :=
  [diamond_entry;
   mkAsset 1 "shared" [] (text ["log shared"]) (Some []);
   mkAsset 2 "shared" [] (text ["log shared"]) (Some [])].

Definition repeated_entry : Asset :=
  mkAsset 0 "./entry.js" ["./a"; "./a"] (text ["require ./a"; "require ./a"])
          (Some [("./a", 2)]).

Definition repeated_assets : list Asset :=
  [repeated_entry;
   mkAsset 1 "a" [] (text ["log a"]) (Some []);
   mkAsset 2 "a" [] (text ["log a"]) (Some [])].

Definition rerun_assets : list Asset :=
  [mkAsset 0 "./entry.js" ["./a"] (text ["require ./a"; "require ./a"]) (Some [("./a", 1)]);
   mkAsset 1 "a" [] (text ["log a"; "export x"]) (Some [])].

Definition ghost_assets : list Asset :=
  [mkAsset 0 "./entry.js" [] (text ["require ./ghost"; "log unreachable"]) (Some [])].

Definition stray_import_assets : list Asset :=
  [mkAsset 0 "./entry.js" ["./missing"] (text ["require ./missing"; "log entry"])
           (Some [("./missing", 1)]);
   mkAsset 1 "missing" [] (text ["log stray"]) (Some [])].

Definition replaced_assets : list Asset :=
  [mkAsset 0 "./entry.js" [] (text ["replace"]) (Some [])].

Definition proto_twice_assets : list Asset :=
  [mkAsset 0 "./entry.js" ["__proto__"; "__proto__"]
           (text ["require __proto__"; "require __proto__"]) (Some []);
   mkAsset 1 "__proto__" [] (text ["log proto"]) (Some []);
   mkAsset 2 "__proto__" [] (text ["log proto"]) (Some [])].

End Demo.

(** * Properties *)

Section Properties.
Context `{Host}.

(** ** The monad *)

Lemma bind_Returned {A B} (m : M A) (f : A → M B) n a n' :
  m n = Returned a n' → (m ≫= f) n = f a n'.
Proof. intros E. unfold mbind, M_bind. by rewrite E. Qed.

Lemma bind_Threw {A B} (m : M A) (f : A → M B) n e n' :
  m n = Threw e n' → (m ≫= f) n = Threw e n'.
Proof. intros E. unfold mbind, M_bind. by rewrite E. Qed.

Lemma bind_Running {A B} (m : M A) (f : A → M B) n :
  m n = Running → (m ≫= f) n = Running.
Proof. intros E. unfold mbind, M_bind. by rewrite E. Qed.

Lemma bind_inv_Returned {A B} (m : M A) (f : A → M B) n b n'' :
  (m ≫= f) n = Returned b n'' →
  ∃ a n', m n = Returned a n' ∧ f a n' = Returned b n''.
Proof.
  unfold mbind, M_bind. destruct (m n) as [a n'| |]; [|done..]. eauto.
Qed.

(** ** [readFileGuessExtension] *)

(** [find] returns the first entry, in listing order, that starts with the
    name. *)
Lemma find_prefixed_first name pre x post :
  String.prefix name x = true →
  Forall (λ y, String.prefix name y = false) pre →
  find_prefixed name (pre ++ x :: post) = Some x.
Proof.
  intros Hx Hpre. unfold find_prefixed.
  induction Hpre as [|y pre Hy _ IH]; simpl.
  - by rewrite Hx.
  - by rewrite Hy.
Qed.

Lemma find_prefixed_Some name files x :
  find_prefixed name files = Some x →
  ∃ pre post, files = pre ++ x :: post ∧ String.prefix name x = true ∧
              Forall (λ y, String.prefix name y = false) pre.
Proof.
  unfold find_prefixed. induction files as [|y files IH]; simpl; [done|].
  destruct (String.prefix name y) eqn:Hy.
  - intros [= ->]. by exists [], files.
  - intros (pre & post & -> & Hx & Hpre)%IH.
    exists (y :: pre), post. split_and!; [done..|by constructor].
Qed.

Lemma find_prefixed_None name files :
  find_prefixed name files = None ↔
  Forall (λ y, String.prefix name y = false) files.
Proof.
  unfold find_prefixed. induction files as [|y files IH]; simpl.
  - split; [constructor|done].
  - destruct (String.prefix name y) eqn:Hy.
    + split; [done|]. intros Hf. apply Forall_cons in Hf as [? _]. congruence.
    + rewrite IH. split; [by constructor|]. by intros [_ ?]%Forall_cons.
Qed.

(** ** [createAsset] *)

(** The five ways a call of [createAsset] can go.  [ID] is advanced after
    the traversal and before the transform, so only a failed transform leaves
    it advanced. *)
Lemma createAsset_unfold p n :
  createAsset p n =
  match readFileGuessExtension p with
  | None => Threw NullContent n
  | Some text =>
      match babylon_parse text with
      | inl msg => Threw (SyntaxError msg) n
      | inr tree =>
          match import_sources tree with
          | inl msg => Threw (TraverseError msg) n
          | inr sources =>
              match transformFromAstSync tree with
              | inl msg => Threw (TransformError msg) (S n)
              | inr code => Returned (mkAsset n p sources code None) (S n)
              end
          end
      end
  end.
Proof.
  unfold createAsset, parse, traverse, transform, mbind, M_bind, mret, M_ret, throw, next_ID.
  destruct (readFileGuessExtension p) as [text|]; [|done].
  destruct (babylon_parse text) as [msg|tree]; [done|].
  destruct (import_sources tree) as [msg|sources]; [done|].
  by destruct (transformFromAstSync tree).
Qed.

Lemma createAsset_Returned p n a n' :
  createAsset p n = Returned a n' →
  n' = S n ∧ id a = n ∧ filename a = p ∧ mapping a = None ∧ built a.
Proof.
  rewrite createAsset_unfold.
  destruct (readFileGuessExtension p) as [text|] eqn:Et; [|done].
  destruct (babylon_parse text) as [msg|tree] eqn:Ep; [done|].
  destruct (import_sources tree) as [msg|sources] eqn:Es; [done|].
  destruct (transformFromAstSync tree) as [msg|c] eqn:Ec; [done|].
  intros [= <- <-]. split_and!; try done.
  exists text, tree. by simpl.
Qed.

Lemma createAsset_compiles p specifiers c n :
  compiles p specifiers c →
  createAsset p n = Returned (mkAsset n p specifiers c None) (S n).
Proof.
  intros (text & tree & Et & Ep & Es & Ec).
  by rewrite createAsset_unfold, Et, Ep, Es, Ec.
Qed.

Lemma createAsset_never_Running p n : createAsset p n ≠ Running.
Proof.
  rewrite createAsset_unfold.
  destruct (readFileGuessExtension p) as [text|]; [|done].
  destruct (babylon_parse text) as [msg|tree]; [done|].
  destruct (import_sources tree) as [msg|sources]; [done|].
  by destruct (transformFromAstSync tree).
Qed.

(** ** One turn of the loop *)

Lemma with_mapping_assign s v a table :
  with_mapping (assign_mapping s v a) table = with_mapping a table.
Proof. done. Qed.

Lemma with_mapping_reset a table :
  with_mapping (reset_mapping a) table = with_mapping a table.
Proof. done. Qed.

(** What the children of one asset are, when all of them can be built. *)
Lemma build_children_Returned dir ss table n r n' :
  build_children dir ss table n = Returned r n' →
  n' = n + length ss ∧
  r.1 = fill ss n table ∧
  id <$> r.2 = seq n (length ss) ∧
  Forall built r.2 ∧
  Forall (λ c, mapping c = None) r.2 ∧
  filename <$> r.2 = path_join dir <$> ss.
Proof.
  revert table n r. induction ss as [|s ss IH]; intros table n r; simpl.
  - intros [= <- <-]. split_and!; by try constructor.
  - intros (child & n1 & Ec & E)%bind_inv_Returned.
    apply bind_inv_Returned in E as (r' & n2 & Er & [= <- <-]).
    apply createAsset_Returned in Ec as (-> & Hid & Hf & Hm & Hb).
    apply IH in Er as (-> & Ht & Hids & Hbs & Hms & Hfs). csimpl.
    split_and!; [lia| by rewrite Ht, Hid | by rewrite Hid, Hids
                | by constructor | by constructor | by rewrite Hf, Hfs].
Qed.

Lemma build_children_never_Running dir ss table n :
  build_children dir ss table n ≠ Running.
Proof.
  revert table n. induction ss as [|s ss IH]; intros table n; simpl; [done|].
  unfold mbind, M_bind.
  destruct (createAsset (path_join dir s) n) as [c n1| |] eqn:Ec; [|done|].
  - specialize (IH (obj_set s (id c) table) n1).
    by destruct (build_children dir ss (obj_set s (id c) table) n1).
  - by apply createAsset_never_Running in Ec.
Qed.

Lemma visit_unfold i dir s q n :
  visit i dir s q n =
  match createAsset (path_join dir s) n with
  | Returned c n1 => Returned (alter (assign_mapping s (id c)) i q ++ [c]) n1
  | Threw e n1 => Threw e n1
  | Running => Running
  end.
Proof. done. Qed.

Lemma build_children_cons dir s ss table n :
  build_children dir (s :: ss) table n =
  match createAsset (path_join dir s) n with
  | Returned c n1 =>
      match build_children dir ss (obj_set s (id c) table) n1 with
      | Returned r n2 => Returned (r.1, c :: r.2) n2
      | Threw e n2 => Threw e n2
      | Running => Running
      end
  | Threw e n1 => Threw e n1
  | Running => Running
  end.
Proof. done. Qed.

Lemma forEach_cons {A S} (f : A → S → M S) x xs s n :
  forEach f (x :: xs) s n =
  match f x s n with
  | Returned s' n' => forEach f xs s' n'
  | Threw e n' => Threw e n'
  | Running => Running
  end.
Proof. done. Qed.

(** The [forEach] of [createGraph], which mutates the queue as it goes,
    against the children computed in one go. *)
Lemma forEach_visit i dir ss q a table n :
  q !! i = Some a → mapping a = Some table →
  forEach (visit i dir) ss q n =
  match build_children dir ss table n with
  | Returned r n' => Returned (<[i := with_mapping a r.1]> q ++ r.2) n'
  | Threw e n' => Threw e n'
  | Running => Running
  end.
Proof.
  revert q a table n. induction ss as [|s ss IH]; intros q a table n Hi Hm.
  - simpl. unfold mret, M_ret. simpl. rewrite app_nil_r. f_equal.
    symmetry. apply list_insert_id. rewrite Hi. f_equal.
    destruct a; simpl in *; by subst.
  - rewrite forEach_cons, visit_unfold, build_children_cons.
    destruct (createAsset (path_join dir s) n) as [c n1| |] eqn:Ec; [|done..].
    assert (Hlt : i < length q) by by eapply lookup_lt_Some.
    rewrite (IH _ (assign_mapping s (id c) a) (obj_set s (id c) table)).
    + destruct (build_children dir ss (obj_set s (id c) table) n1)
        as [r n2| |]; [|done..].
      simpl. f_equal.
      rewrite with_mapping_assign, insert_app_l
        by (by rewrite length_alter).
      rewrite <- (assoc_L (++)). simpl. f_equal.
      rewrite list_insert_alter, list_alter_alter_eq. by rewrite list_insert_alter.
    + rewrite lookup_app_l by by rewrite length_alter.
      by rewrite list_lookup_alter_eq, Hi.
    + simpl. by rewrite Hm.
Qed.

Lemma turn_unfold i a q n :
  q !! i = Some a →
  turn i a q n =
  match build_children (path_dirname (filename a)) (dependencies a) [] n with
  | Returned r n' => Returned (<[i := with_mapping a r.1]> q ++ r.2) n'
  | Threw e n' => Threw e n'
  | Running => Running
  end.
Proof.
  intros Hi. unfold turn.
  assert (Hlt : i < length q) by by eapply lookup_lt_Some.
  rewrite (forEach_visit i _ _ _ (reset_mapping a) []);
    [|by rewrite list_lookup_insert_eq|done].
  destruct (build_children _ _ _ _) as [r n'| |]; [|done..].
  by rewrite with_mapping_reset, list_insert_insert_eq.
Qed.

(** ** Where the children of an asset are *)

Lemma widths_app q cs : widths (q ++ cs) = widths q ++ widths cs.
Proof. apply fmap_app. Qed.

Lemma widths_length q : length (widths q) = length q.
Proof. apply length_fmap. Qed.

Lemma widths_insert q i a a' :
  q !! i = Some a → dependencies a' = dependencies a →
  widths (<[i := a']> q) = widths q.
Proof.
  intros Hi Hd. unfold widths. rewrite list_fmap_insert, Hd.
  apply list_insert_id. by rewrite list_lookup_fmap, Hi.
Qed.

Lemma offset_app q cs k : k ≤ length q → offset (q ++ cs) k = offset q k.
Proof.
  intros Hk. unfold offset. rewrite widths_app, take_app_le; [done|].
  by rewrite widths_length.
Qed.

Lemma offset_insert q i a a' k :
  q !! i = Some a → dependencies a' = dependencies a →
  offset (<[i := a']> q) k = offset q k.
Proof. intros Hi Hd. unfold offset. by erewrite widths_insert. Qed.

Lemma offset_S q k a :
  q !! k = Some a → offset q (S k) = offset q k + length (dependencies a).
Proof.
  intros Hk. unfold offset.
  rewrite (take_S_r _ _ (length (dependencies a))).
  - rewrite sum_list_with_app. simpl. lia.
  - unfold widths. by rewrite list_lookup_fmap, Hk.
Qed.

Lemma offset_mono q k1 k2 : k1 ≤ k2 → offset q k1 ≤ offset q k2.
Proof.
  induction 1 as [|k2 _ IH]; [done|].
  destruct (q !! k2) as [a|] eqn:E.
  - rewrite (offset_S _ _ a E). lia.
  - unfold offset in *. apply lookup_ge_None in E.
    rewrite (take_ge _ (S k2)) by (rewrite widths_length; lia).
    by rewrite (take_ge _ k2) in IH by (rewrite widths_length; lia).
Qed.

(** The children of two different assets do not overlap. *)
Lemma offset_next q k1 k2 a :
  k1 < k2 → q !! k1 = Some a →
  offset q k1 + length (dependencies a) ≤ offset q k2.
Proof.
  intros Hlt Hk. rewrite <- (offset_S _ _ _ Hk). by apply offset_mono.
Qed.

(** ** The loop invariant *)

Lemma invariant_init entry n a n' :
  createAsset entry n = Returned a n' → invariant n 0 [a] ∧ n' = n + 1 ∧ filename a = entry.
Proof.
  intros (-> & Hid & Hf & Hm & Hb)%createAsset_Returned.
  split_and!; [|lia|done]. split; simpl.
  - by rewrite Hid.
  - lia.
  - done.
  - by constructor.
  - intros k b Hk. lia.
  - intros [|k] b _; [|done]. by intros [= <-].
Qed.

Lemma invariant_step first i q a r n' :
  invariant first i q → q !! i = Some a →
  build_children (path_dirname (filename a)) (dependencies a) []
                 (first + length q) = Returned r n' →
  invariant first (S i) (<[i := with_mapping a r.1]> q ++ r.2) ∧
  n' = first + length (<[i := with_mapping a r.1]> q ++ r.2).
Proof.
  intros [Hids Hbound Hlen Hbuilt Hdone Htodo] Hi
         (-> & Htable & Hcids & Hcbuilt & Hcnone & Hcfiles)%build_children_Returned.
  assert (Hlt : i < length q) by by eapply lookup_lt_Some.
  assert (Hclen : length r.2 = length (dependencies a)).
  { by rewrite <- (length_fmap id), Hcids, length_seq. }
  set (a' := with_mapping a r.1).
  assert (Hoff : ∀ k, k ≤ length q → offset (<[i := a']> q ++ r.2) k = offset q k).
  { intros k Hk. rewrite offset_app by by rewrite length_insert.
    by apply (offset_insert _ _ a). }
  split; [|rewrite length_app, length_insert; lia].
  split.
  - rewrite fmap_app, list_fmap_insert, length_app, length_insert, seq_app.
    f_equal; [|by rewrite Hcids, Hclen].
    rewrite <- Hids. apply list_insert_id. by rewrite list_lookup_fmap, Hi.
  - rewrite length_app, length_insert. lia.
  - rewrite Hoff by lia. rewrite (offset_S _ _ a Hi), length_app, length_insert. lia.
  - apply Forall_app. split; [|done].
    apply Forall_insert; [done|].
    rewrite Forall_lookup in Hbuilt. by apply (Hbuilt i a).
  - intros k b Hk Hb. unfold family. rewrite Hoff by lia.
    destruct (decide (k = i)) as [->|Hne].
    + rewrite lookup_app_l, list_lookup_insert_eq in Hb
        by (by rewrite ?length_insert).
      injection Hb as <-. split.
      * simpl. by rewrite Htable, Hlen.
      * intros j s Hj. rewrite <- Hlen.
        rewrite lookup_app_r by (rewrite length_insert; lia).
        rewrite length_insert.
        replace (length q + j - length q) with j by lia.
        change (dependencies a') with (dependencies a) in Hj.
        change (filename a') with (filename a).
        assert (Hf : (filename <$> r.2) !! j = Some (path_join (path_dirname (filename a)) s)).
        { by rewrite Hcfiles, list_lookup_fmap, Hj. }
        rewrite list_lookup_fmap in Hf.
        destruct (r.2 !! j) as [c|]; [|done]. injection Hf as Hf. by exists c.
    + assert (Hki : k < i) by lia.
      rewrite lookup_app_l, list_lookup_insert_ne in Hb
        by (rewrite ?length_insert; lia || done).
      destruct (Hdone k b Hki Hb) as [Hm Hch]. split; [done|].
      intros j s Hj. destruct (Hch j s Hj) as (c & Hc & Hfc).
      assert (Hp : offset q k + j < length q) by by eapply lookup_lt_Some.
      rewrite lookup_app_l by by rewrite length_insert.
      destruct (decide (i = offset q k + j)) as [Heq|Hne'].
      * rewrite <- Heq, list_lookup_insert_eq by done.
        exists a'. split; [done|]. rewrite <- Heq, Hi in Hc. by injection Hc as <-.
      * rewrite list_lookup_insert_ne by done. by exists c.
  - intros k b Hk Hb.
    destruct (decide (k < length q)) as [Hkq|Hkq].
    + rewrite lookup_app_l, list_lookup_insert_ne in Hb
        by (rewrite ?length_insert; lia).
      apply (Htodo k b); [lia|done].
    + rewrite lookup_app_r in Hb by (rewrite length_insert; lia).
      rewrite Forall_lookup in Hcnone. by eapply Hcnone.
Qed.

(** The invariant holds when the loop ends, and [ID] has advanced by the
    number of assets. *)
Lemma for_of_invariant fuel first i q g n' :
  invariant first i q →
  for_of fuel i q (first + length q) = Returned g n' →
  invariant first (length g) g ∧ n' = first + length g.
Proof.
  revert i q. induction fuel as [|fuel IH]; intros i q Hinv; simpl; [done|].
  destruct (q !! i) as [a|] eqn:Hi.
  - intros (q' & n1 & Ht & Hrest)%bind_inv_Returned.
    rewrite (turn_unfold _ _ _ _ Hi) in Ht.
    destruct (build_children _ _ _ _) as [r n2| |] eqn:Er; [|done..].
    injection Ht as <- <-.
    destruct (invariant_step _ _ _ _ _ _ Hinv Hi Er) as [Hinv' ->].
    by apply (IH _ _ Hinv').
  - intros [= <- <-]. split; [|done].
    apply lookup_ge_None in Hi. destruct Hinv as [? Hbound ? ? ? ?].
    by replace (length q) with i by lia.
Qed.

Lemma createGraph_invariant fuel entry n g n' :
  createGraph fuel entry n = Returned g n' →
  invariant n (length g) g ∧ n' = n + length g ∧
  ∃ a, g !! 0 = Some a ∧ filename a = entry.
Proof.
  unfold createGraph. intros (a & n1 & Ea & Hloop)%bind_inv_Returned.
  destruct (invariant_init _ _ _ _ Ea) as (Hinv & -> & Hf).
  destruct (for_of_invariant fuel n 0 [a] g n' Hinv Hloop) as [Hinv' ->].
  split_and!; [done..|].
  destruct Hinv' as [_ _ _ _ Hdone _]. clear Hinv Ea.
  (* the entry stays at index 0: only its mapping changes *)
  revert Hloop. generalize (n + 1). intros m Hloop.
  assert (Hgen : ∀ fuel i q m g n', (∃ a0, q !! 0 = Some a0 ∧ filename a0 = entry) →
            for_of fuel i q m = Returned g n' → ∃ a0, g !! 0 = Some a0 ∧ filename a0 = entry).
  { clear. intros fuel. induction fuel as [|fuel IH]; intros i q m g n' H0; simpl; [done|].
    destruct (q !! i) as [a|] eqn:Hi.
    - intros (q' & n1 & Ht & Hrest)%bind_inv_Returned.
      rewrite (turn_unfold _ _ _ _ Hi) in Ht.
      destruct (build_children _ _ _ _) as [r n2| |] eqn:Er; [|done..].
      injection Ht as <- <-. eapply IH; [|done].
      destruct H0 as (a0 & Ha0 & Hf0).
      assert (0 < length q) by by eapply lookup_lt_Some.
      rewrite lookup_app_l by (rewrite length_insert; lia).
      destruct i as [|i].
      + rewrite list_lookup_insert_eq by done. exists (with_mapping a r.1).
        split; [done|]. rewrite Hi in Ha0. by injection Ha0 as <-.
      + rewrite list_lookup_insert_ne by done. by exists a0.
    - by intros [= <- <-]. }
  eapply Hgen; [|done]. by exists a.
Qed.

(** ** The loop against the queue-and-graph formulation *)

Lemma ids_lookup first (q : list Asset) j b :
  id <$> q = seq first (length q) → q !! j = Some b → id b = first + j.
Proof.
  intros Hids Hj.
  assert (Hl : (id <$> q) !! j = Some (id b)) by by rewrite list_lookup_fmap, Hj.
  rewrite Hids in Hl. by apply lookup_seq in Hl as [-> _].
Qed.

(** Ids identify the objects of the queue: updating the asset with the id of
    [a] is updating the slot [a] sits in. *)
Lemma set_mapping_of_insert first q i a table :
  id <$> q = seq first (length q) → q !! i = Some a →
  set_mapping_of a table q = <[i := with_mapping a table]> q.
Proof.
  intros Hids Hi. apply list_eq. intros j. unfold set_mapping_of.
  rewrite list_lookup_fmap.
  assert (Hlt : i < length q) by by eapply lookup_lt_Some.
  destruct (decide (j = i)) as [->|Hne].
  - rewrite list_lookup_insert_eq, Hi by done. simpl. by rewrite decide_True.
  - rewrite list_lookup_insert_ne by done.
    destruct (q !! j) as [b|] eqn:Hj; [|done]. simpl.
    rewrite decide_False; [done|].
    rewrite (ids_lookup _ _ _ _ Hids Hj), (ids_lookup _ _ _ _ Hids Hi). lia.
Qed.

Lemma for_of_spec_loop fuel first i q :
  id <$> q = seq first (length q) →
  for_of fuel i q (first + length q) = spec_loop fuel (drop i q) q (first + length q).
Proof.
  revert i q. induction fuel as [|fuel IH]; intros i q Hids; [done|]. simpl.
  destruct (q !! i) as [a|] eqn:Hi.
  - rewrite (drop_S _ _ _ Hi). unfold mbind, M_bind.
    rewrite (turn_unfold _ _ _ _ Hi).
    destruct (build_children _ _ _ _) as [r n1| |] eqn:Er; [|done..].
    assert (Hlt : i < length q) by by eapply lookup_lt_Some.
    apply build_children_Returned in Er as (-> & _ & Hcids & _).
    assert (Hclen : length r.2 = length (dependencies a)).
    { by rewrite <- (length_fmap id), Hcids, length_seq. }
    rewrite (set_mapping_of_insert first _ i) by done.
    set (q' := <[i := with_mapping a r.1]> q ++ r.2).
    assert (Hq' : length q' = length q + length (dependencies a)).
    { unfold q'. rewrite length_app, length_insert. lia. }
    replace (first + length q + length (dependencies a)) with (first + length q') by lia.
    replace (drop (S i) q ++ r.2) with (drop (S i) q').
    + apply IH. unfold q'.
      rewrite fmap_app, list_fmap_insert, length_app, length_insert, seq_app.
      f_equal; [|by rewrite Hcids, Hclen].
      rewrite <- Hids. apply list_insert_id. by rewrite list_lookup_fmap, Hi.
    + unfold q'. rewrite drop_app_le by (rewrite length_insert; lia).
      by rewrite drop_insert_lt by lia.
  - apply lookup_ge_None in Hi. by rewrite drop_ge.
Qed.

Lemma createGraph_spec fuel entry n :
  createGraph fuel entry n = spec_build_graph fuel entry n.
Proof.
  unfold createGraph, spec_build_graph, mbind, M_bind.
  destruct (createAsset entry n) as [a n1| |] eqn:Ea; [|done..].
  apply createAsset_Returned in Ea as (-> & Hid & _).
  replace (S n) with (n + length [a]) by (simpl; lia).
  apply (for_of_spec_loop fuel n 0 [a]). simpl. by rewrite Hid.
Qed.

(** ** Fuel *)

(** More fuel does not change a result. *)
Lemma for_of_more_fuel fuel extra i q n g n' :
  for_of fuel i q n = Returned g n' → for_of (fuel + extra) i q n = Returned g n'.
Proof.
  revert i q n. induction fuel as [|fuel IH]; intros i q n; simpl; [done|].
  destruct (q !! i) as [a|]; [|done].
  intros (q' & n1 & Ht & Hrest)%bind_inv_Returned.
  rewrite (bind_Returned _ _ _ _ _ Ht). by apply IH.
Qed.

Lemma for_of_more_fuel_Threw fuel extra i q n e n' :
  for_of fuel i q n = Threw e n' → for_of (fuel + extra) i q n = Threw e n'.
Proof.
  revert i q n. induction fuel as [|fuel IH]; intros i q n; simpl; [done|].
  destruct (q !! i) as [a|]; [|done].
  unfold mbind, M_bind. destruct (turn i a q n) as [q' n1| |]; [|done..].
  by apply IH.
Qed.

Lemma for_of_S fuel i q n a :
  q !! i = Some a →
  for_of (S fuel) i q n =
  match turn i a q n with
  | Returned q' n' => for_of fuel (S i) q' n'
  | Threw e n' => Threw e n'
  | Running => Running
  end.
Proof. intros Hi. simpl. by rewrite Hi. Qed.

Lemma for_of_end fuel i q n :
  q !! i = None → for_of (S fuel) i q n = Returned q n.
Proof. intros Hi. simpl. by rewrite Hi. Qed.

(** The chain entry -> "./a" -> "./b", on any host. *)
Lemma chain_graph entry c0 c1 c2 fuel :
  let pa := path_join (path_dirname entry) "./a" in
  let pb := path_join (path_dirname pa) "./b" in
  compiles entry ["./a"] c0 → compiles pa ["./b"] c1 → compiles pb [] c2 →
  createGraph (4 + fuel) entry 0 =
  Returned [mkAsset 0 entry ["./a"] c0 (Some [("./a", 1)]);
            mkAsset 1 pa ["./b"] c1 (Some [("./b", 2)]);
            mkAsset 2 pb [] c2 (Some [])] 3.
Proof.
  intros pa pb H0 H1 H2. unfold createGraph.
  rewrite (bind_Returned _ _ _ _ _ (createAsset_compiles _ _ _ 0 H0)).
  apply (for_of_more_fuel 4 fuel).
  erewrite for_of_S by done. rewrite turn_unfold by done.
  cbn [dependencies filename]. rewrite build_children_cons. fold pa.
  rewrite (createAsset_compiles _ _ _ 1 H1). cbn -[for_of].
  erewrite for_of_S by done. rewrite turn_unfold by done.
  cbn [dependencies filename]. rewrite build_children_cons. fold pb.
  rewrite (createAsset_compiles _ _ _ 2 H2). cbn -[for_of].
  erewrite for_of_S by done. rewrite turn_unfold by done. cbn -[for_of].
  by rewrite for_of_end.
Qed.

(** ** Tables *)

Lemma own_get_own_set k k' v o :
  own_get k (own_set k' v o) = if decide (k = k') then Some v else own_get k o.
Proof.
  induction o as [|[k0 v0] o IH]; simpl.
  - by destruct (decide (k = k')).
  - destruct (decide (k' = k0)) as [->|Hne]; simpl.
    + by destruct (decide (k = k0)).
    + destruct (decide (k = k0)) as [->|]; [|done].
      by rewrite decide_False by done.
Qed.

Lemma own_get_obj_set k k' v o :
  own_get k (obj_set k' v o) =
  if decide (k' = proto_key) then own_get k o
  else if decide (k = k') then Some v else own_get k o.
Proof.
  unfold obj_set. destruct (decide (k' = proto_key)); [done|].
  apply own_get_own_set.
Qed.

Lemma keys_own_set k k' v o : k ∈ keys (own_set k' v o) ↔ k = k' ∨ k ∈ keys o.
Proof.
  unfold keys. induction o as [|[k0 v0] o IH]; simpl.
  - rewrite list_elem_of_singleton, elem_of_nil. naive_solver.
  - destruct (decide (k' = k0)) as [->|Hne]; csimpl.
    + set_solver.
    + rewrite !elem_of_cons, IH. naive_solver.
Qed.

Lemma keys_own_set_NoDup k v o : NoDup (keys o) → NoDup (keys (own_set k v o)).
Proof.
  unfold keys. induction o as [|[k0 v0] o IH]; csimpl.
  - intros _. apply NoDup_singleton.
  - intros [Hnotin Hnd]%NoDup_cons.
    destruct (decide (k = k0)) as [->|Hne]; csimpl.
    + by apply NoDup_cons.
    + apply NoDup_cons. split; [|by apply IH].
      intros [?|?]%keys_own_set; [congruence|done].
Qed.

Lemma keys_fill k ss first o :
  k ∈ keys (fill ss first o) ↔ (k ∈ ss ∧ k ≠ proto_key) ∨ k ∈ keys o.
Proof.
  revert first o. induction ss as [|s ss IH]; intros first o; simpl.
  - set_solver.
  - rewrite IH, elem_of_cons. unfold obj_set.
    destruct (decide (s = proto_key)) as [->|Hs].
    + naive_solver.
    + rewrite keys_own_set. naive_solver.
Qed.

Lemma keys_fill_NoDup ss first o : NoDup (keys o) → NoDup (keys (fill ss first o)).
Proof.
  revert first o. induction ss as [|s ss IH]; intros first o Hnd; simpl; [done|].
  apply IH. unfold obj_set. destruct (decide (s = proto_key)); [done|].
  by apply keys_own_set_NoDup.
Qed.

Lemma own_get_fill k ss first o :
  k ≠ proto_key →
  own_get k (fill ss first o) =
  match last_index k ss with
  | Some j => Some (first + j)
  | None => own_get k o
  end.
Proof.
  intros Hk. revert first o. induction ss as [|s ss IH]; intros first o; simpl; [done|].
  rewrite IH. destruct (last_index k ss) as [j|].
  - f_equal. lia.
  - rewrite own_get_obj_set.
    destruct (decide (s = k)) as [->|Hne].
    + rewrite decide_False, decide_True by done. f_equal. lia.
    + destruct (decide (s = proto_key)); [done|]. by rewrite decide_False.
Qed.

Lemma own_get_fill_proto ss first o :
  own_get proto_key (fill ss first o) = own_get proto_key o.
Proof.
  revert first o. induction ss as [|s ss IH]; intros first o; simpl; [done|].
  rewrite IH, own_get_obj_set.
  destruct (decide (s = proto_key)); [done|]. by rewrite decide_False.
Qed.

Lemma last_index_Some s l j :
  last_index s l = Some j →
  l !! j = Some s ∧ ∀ j', j < j' → l !! j' ≠ Some s.
Proof.
  revert j. induction l as [|x l IH]; intros j; simpl; [done|].
  destruct (last_index s l) as [j0|] eqn:E.
  - intros [= <-]. destruct (IH j0 eq_refl) as [Hj Hlast]. split; [done|].
    intros [|j'] Hlt; [lia|]. simpl. apply Hlast. lia.
  - destruct (decide (x = s)) as [->|]; [|done]. intros [= <-]. split; [done|].
    intros [|j'] Hlt; [lia|]. simpl. intros Hin.
    clear IH Hlt. revert j' Hin. induction l as [|y l IHl]; intros j' Hin; [done|].
    simpl in E. destruct (last_index s l) eqn:E'; [done|].
    destruct (decide (y = s)); [done|].
    destruct j' as [|j']; simpl in Hin; [congruence|]. by eapply IHl.
Qed.

Lemma last_index_None s l : last_index s l = None ↔ s ∉ l.
Proof.
  induction l as [|x l IH]; simpl.
  - split; [|done]. intros _. apply not_elem_of_nil.
  - rewrite not_elem_of_cons. destruct (last_index s l) as [j|].
    + split; [done|]. intros [_ Hn]. by apply IH in Hn.
    + destruct (decide (x = s)) as [->|]; [naive_solver|].
      split; [|done]. intros _. split; [done|]. by apply IH.
Qed.

(** Whatever a filled table holds under [s] is the id given to the last
    occurrence of [s]. *)
Lemma own_get_fill_Some k ss first v :
  own_get k (fill ss first []) = Some v →
  k ≠ proto_key ∧ ∃ j, last_index k ss = Some j ∧ v = first + j.
Proof.
  destruct (decide (k = proto_key)) as [->|Hk].
  - by rewrite own_get_fill_proto.
  - rewrite own_get_fill by done.
    destruct (last_index k ss) as [j|]; [|done]. intros [= <-]. eauto.
Qed.

(** ** The shape of a finished graph *)

Lemma graph_mapping first g k a :
  invariant first (length g) g → g !! k = Some a →
  mapping a = Some (fill (dependencies a) (first + offset g k) []).
Proof.
  intros [_ _ _ _ Hdone _] Hk.
  assert (k < length g) by by eapply lookup_lt_Some.
  by destruct (Hdone k a).
Qed.

Lemma graph_child first g k a j s :
  invariant first (length g) g → g !! k = Some a → dependencies a !! j = Some s →
  ∃ c, g !! (offset g k + j) = Some c ∧
       id c = first + (offset g k + j) ∧
       filename c = path_join (path_dirname (filename a)) s ∧
       built c.
Proof.
  intros [Hids _ _ Hbuilt Hdone _] Hk Hj.
  assert (k < length g) by by eapply lookup_lt_Some.
  destruct (Hdone k a) as [_ Hch]; [done..|].
  destruct (Hch j s Hj) as (c & Hc & Hf). exists c. split_and!; try done.
  - by eapply ids_lookup.
  - rewrite Forall_lookup in Hbuilt. by eapply Hbuilt.
Qed.

(** A slot of the graph is the child of one occurrence of one specifier. *)
Lemma slot_inj g k1 k2 a1 a2 j1 j2 :
  g !! k1 = Some a1 → g !! k2 = Some a2 →
  j1 < length (dependencies a1) → j2 < length (dependencies a2) →
  offset g k1 + j1 = offset g k2 + j2 → k1 = k2 ∧ j1 = j2.
Proof.
  intros H1 H2 Hj1 Hj2 Heq.
  destruct (decide (k1 = k2)) as [->|Hne].
  - split; [done|lia].
  - destruct (decide (k1 < k2)).
    + pose proof (offset_next g k1 k2 a1 ltac:(done) H1). lia.
    + pose proof (offset_next g k2 k1 a2 ltac:(lia) H2). lia.
Qed.

(** The child built for an occurrence of [s] that is not the last one is in
    no mapping. *)
Lemma graph_orphan first g k a j j' s :
  invariant first (length g) g → g !! k = Some a →
  dependencies a !! j = Some s → dependencies a !! j' = Some s → j < j' →
  ∀ kb b table key, g !! kb = Some b → mapping b = Some table →
    own_get key table ≠ Some (first + (offset g k + j)).
Proof.
  intros Hinv Hk Hj Hj' Hlt kb b table key Hkb Hm Hget.
  rewrite (graph_mapping _ _ _ _ Hinv Hkb) in Hm. injection Hm as <-.
  apply own_get_fill_Some in Hget as (_ & jb & Hlast & Heq).
  apply last_index_Some in Hlast as [Hjb Hafter].
  destruct (slot_inj g kb k b a jb j) as [-> ->]; try done.
  - by eapply lookup_lt_Some.
  - by eapply lookup_lt_Some.
  - lia.
  - rewrite Hk in Hkb. injection Hkb as <-.
    rewrite Hj in Hjb. injection Hjb as <-.
    by apply (Hafter j' Hlt).
Qed.

(** ** The text of a bundle *)

Lemma append_assoc (s1 s2 s3 : string) : (s1 +:+ s2) +:+ s3 = s1 +:+ (s2 +:+ s3).
Proof.
  induction s1 as [|c s1 IH]; [done|].
  change (String c ((s1 +:+ s2) +:+ s3) = String c (s1 +:+ (s2 +:+ s3))). by f_equal.
Qed.

Lemma append_empty_r (s : string) : s +:+ "" = s.
Proof.
  induction s as [|c s IH]; [done|].
  change (String c (s +:+ "") = String c s). by f_equal.
Qed.

Lemma modules_text acc graph :
  foldl (λ modules module, modules +:+ module_entry module) acc graph =
  acc +:+ foldl (λ modules module, modules +:+ module_entry module) "" graph.
Proof.
  revert acc. induction graph as [|a graph IH]; intros acc; simpl.
  - by rewrite append_empty_r.
  - rewrite IH, (IH ("" +:+ module_entry a)).
    change ("" +:+ module_entry a) with (module_entry a). by rewrite append_assoc.
Qed.

(** The entry of every asset of the graph is part of the bundle. *)
Lemma bundle_embeds graph a : a ∈ graph → occurs_in (module_entry a) (bundle graph).
Proof.
  intros (pre & post & ->)%list_elem_of_split. unfold bundle.
  rewrite foldl_app. simpl. rewrite modules_text.
  exists (runtime_head +:+ foldl (λ modules module, modules +:+ module_entry module) "" pre),
         (foldl (λ modules module, modules +:+ module_entry module) "" post +:+ runtime_tail).
  by rewrite !append_assoc.
Qed.

(** The bundle is the head of the loader, the entries of the assets in the
    order of the graph, and the tail. *)
Lemma bundle_split graph a :
  a ∈ graph →
  ∃ pre post,
    bundle graph = runtime_head +:+ pre +:+ module_entry a +:+ post +:+ runtime_tail.
Proof.
  intros (pre & post & ->)%list_elem_of_split. unfold bundle.
  rewrite foldl_app. simpl. rewrite modules_text.
  exists (foldl (λ modules module, modules +:+ module_entry module) "" pre),
         (foldl (λ modules module, modules +:+ module_entry module) "" post).
  by rewrite !append_assoc.
Qed.

(** ** The keys of a mapping *)

(** The keys of the mapping of a processed asset are its specifiers, each
    once, except [__proto__], which the assignment never stores. *)
Lemma mapping_keys fuel entry first g last a :
  createGraph fuel entry first = Returned g last → a ∈ g →
  ∃ table, mapping a = Some table ∧ NoDup (keys table) ∧
    ∀ s, s ∈ keys table ↔ s ∈ dependencies a ∧ s ≠ proto_key.
Proof.
  intros (Hinv & _)%createGraph_invariant (k & Hk)%list_elem_of_lookup.
  exists (fill (dependencies a) (first + offset g k) []).
  split_and!; [by eapply graph_mapping| |].
  - apply keys_fill_NoDup. constructor.
  - intros s. rewrite keys_fill. change (keys []) with (@nil string). rewrite elem_of_nil. tauto.
Qed.

Lemma mapping_keys_set fuel entry first g last a table :
  createGraph fuel entry first = Returned g last → a ∈ g → mapping a = Some table →
  list_to_set (keys table) =@{gset string} list_to_set (dependencies a) ∖ {[proto_key]}.
Proof.
  intros Hg Ha Hm. destruct (mapping_keys _ _ _ _ _ _ Hg Ha) as (t & Ht & _ & Hkeys).
  rewrite Hm in Ht. injection Ht as <-.
  apply set_eq. intros s.
  rewrite elem_of_difference, !elem_of_list_to_set, elem_of_singleton. apply Hkeys.
Qed.

(** ** The claims about [createGraph] and [bundle] *)

(** C1, amended.  A build that starts when [ID] holds [first] gives its
    assets the ids [first], [first + 1], ... in creation order, with no gap
    and no repeat; the entry asset gets [first]; and [ID] is left at [first]
    plus the number of assets.  The ids are 0 .. N-1, and the entry has id 0,
    for the build that starts with [ID = 0], the first one of a process. *)
Theorem createGraph_ids fuel entry first g last :
  createGraph fuel entry first = Returned g last →
  id <$> g = seq first (length g) ∧
  NoDup (id <$> g) ∧
  last = first + length g ∧
  ∃ a rest, g = a :: rest ∧ id a = first ∧ filename a = entry.
Proof.
  intros (Hinv & -> & a & Ha & Hf)%createGraph_invariant.
  destruct Hinv as [Hids _ _ _ _ _].
  split_and!; [done| |done|].
  - rewrite Hids. apply NoDup_seq.
  - destruct g as [|a' rest]; [done|]. injection Ha as ->.
    exists a, rest. split_and!; [done| |done].
    rewrite (ids_lookup first (a :: rest) 0 a); [lia|done..].
Qed.

(** C3.  [createGraph] computes what the queue-and-graph algorithm of the
    specification computes (same result, same failure, same divergence).
    When it returns, the entry asset is first; the children of the asset at
    index [k] sit, one per specifier and in the order of the specifiers, from
    index [offset g k] on, that is right behind the children of the assets
    before it; each child is built for the specifier joined to the directory
    of its parent; and the graph holds nothing else.  The chain entry ->
    "./a" -> "./b" gives three assets with the ids 0, 1, 2 and the mappings
    {"./a": 1}, {"./b": 2} and {}. *)
Theorem createGraph_fifo :
  (∀ fuel entry first,
     createGraph fuel entry first = spec_build_graph fuel entry first) ∧
  (∀ fuel entry first g last,
     createGraph fuel entry first = Returned g last →
     (∃ a rest, g = a :: rest ∧ filename a = entry) ∧
     length g = offset g (length g) ∧
     (∀ k a, g !! k = Some a →
        offset g (S k) = offset g k + length (dependencies a) ∧
        mapping a = Some (fill (dependencies a) (first + offset g k) []) ∧
        ∀ j s, dependencies a !! j = Some s →
          ∃ c, g !! (offset g k + j) = Some c ∧
               id c = first + (offset g k + j) ∧
               filename c = path_join (path_dirname (filename a)) s)) ∧
  (∀ entry c0 c1 c2 fuel,
     let pa := path_join (path_dirname entry) "./a" in
     let pb := path_join (path_dirname pa) "./b" in
     compiles entry ["./a"] c0 → compiles pa ["./b"] c1 → compiles pb [] c2 →
     createGraph (4 + fuel) entry 0 =
     Returned [mkAsset 0 entry ["./a"] c0 (Some [("./a", 1)]);
               mkAsset 1 pa ["./b"] c1 (Some [("./b", 2)]);
               mkAsset 2 pb [] c2 (Some [])] 3).
Proof.
  split_and!.
  - apply createGraph_spec.
  - intros fuel entry first g last Hg.
    destruct (createGraph_invariant _ _ _ _ _ Hg) as (Hinv & _ & a & Ha & Hf).
    split_and!.
    + destruct g as [|a' rest]; [done|]. injection Ha as ->. by exists a, rest.
    + by destruct Hinv.
    + intros k b Hk. split_and!.
      * by apply offset_S.
      * by eapply graph_mapping.
      * intros j s Hj.
        destruct (graph_child _ _ _ _ _ _ Hinv Hk Hj) as (c & ? & ? & ? & _).
        by exists c.
  - intros entry c0 c1 c2 fuel. apply chain_graph.
Qed.

(** C4.  Two different specifiers of a graph that resolve to the same path
    get two assets, at two places of the graph, with two ids; each is built
    from the file on its own (loaded, parsed and transformed), and the two
    hold the same file name and the same code. *)
Theorem createGraph_no_dedup fuel entry first g last k1 k2 a1 a2 j1 j2 s1 s2 :
  createGraph fuel entry first = Returned g last →
  g !! k1 = Some a1 → g !! k2 = Some a2 →
  dependencies a1 !! j1 = Some s1 → dependencies a2 !! j2 = Some s2 →
  s1 ≠ s2 →
  path_join (path_dirname (filename a1)) s1 = path_join (path_dirname (filename a2)) s2 →
  ∃ c1 c2,
    g !! (offset g k1 + j1) = Some c1 ∧ g !! (offset g k2 + j2) = Some c2 ∧
    offset g k1 + j1 ≠ offset g k2 + j2 ∧
    id c1 ≠ id c2 ∧
    built c1 ∧ built c2 ∧
    filename c1 = filename c2 ∧ code c1 = code c2.
Proof.
  intros (Hinv & _)%createGraph_invariant Hk1 Hk2 Hj1 Hj2 Hne Htarget.
  destruct (graph_child _ _ _ _ _ _ Hinv Hk1 Hj1) as (c1 & Hc1 & Hid1 & Hf1 & Hb1).
  destruct (graph_child _ _ _ _ _ _ Hinv Hk2 Hj2) as (c2 & Hc2 & Hid2 & Hf2 & Hb2).
  assert (Hslots : offset g k1 + j1 ≠ offset g k2 + j2).
  { intros Heq. destruct (slot_inj g k1 k2 a1 a2 j1 j2) as [-> ->]; try done.
    - by eapply lookup_lt_Some.
    - by eapply lookup_lt_Some.
    - congruence. }
  exists c1, c2. split_and!; try done.
  - lia.
  - congruence.
  - destruct Hb1 as (t1 & tr1 & Ht1 & Hp1 & _ & Hx1).
    destruct Hb2 as (t2 & tr2 & Ht2 & Hp2 & _ & Hx2).
    rewrite Hf1, Htarget, <- Hf2, Ht2 in Ht1. injection Ht1 as <-.
    rewrite Hp2 in Hp1. injection Hp1 as <-. congruence.
Qed.

(** C6.  Two calls of [bundle] on the same graph return the same text,
    whatever the state of the process, which they leave as it is; the text
    depends on the ids, codes and mappings of the graph only. *)
Theorem bundle_deterministic graph :
  (∀ n, bundle_twice graph n = Returned (bundle graph, bundle graph) n) ∧
  (∀ n n', ∃ text, bundle_call graph n = Returned text n ∧
                   bundle_call graph n' = Returned text n') ∧
  (∀ graph',
     Forall2 (λ a b, id a = id b ∧ code a = code b ∧ mapping a = mapping b)
             graph graph' →
     bundle graph = bundle graph').
Proof.
  split_and!; [done|by eexists|].
  intros graph' Hsame. unfold bundle. f_equal. f_equal.
  generalize EmptyString. induction Hsame as [|a b g g' (Hi & Hc & Hm) _ IH]; intros acc; [done|].
  simpl. rewrite IH. do 2 f_equal. unfold module_entry. by rewrite Hi, Hc, Hm.
Qed.

(** X14.  When a specifier [s] occurs at the indices [j < j'] of the
    dependencies of an asset, a child is built and put in the graph for each
    of the two occurrences, with different ids and the same file name.  The
    mapping of the asset holds under [s] the id of the child built for the
    last occurrence of [s], which is not the earlier child; it holds nothing
    under [s] when [s] is [__proto__].  The child of the earlier occurrence
    stays in the graph; the emitted bundle holds, between the head and the
    tail of the loader, its id, its code inside the function wrapper and its
    own mapping; and its id is the value of no key of the mapping of any
    asset. *)
Theorem duplicate_specifier_orphan fuel entry first g last k a j j' s :
  createGraph fuel entry first = Returned g last →
  g !! k = Some a →
  dependencies a !! j = Some s → dependencies a !! j' = Some s → j < j' →
  ∃ c c' table jl cl,
    g !! (offset g k + j) = Some c ∧ g !! (offset g k + j') = Some c' ∧
    built c ∧ built c' ∧ id c ≠ id c' ∧
    filename c = path_join (path_dirname (filename a)) s ∧
    filename c' = path_join (path_dirname (filename a)) s ∧
    mapping a = Some table ∧
    last_index s (dependencies a) = Some jl ∧ j < jl ∧
    g !! (offset g k + jl) = Some cl ∧ id cl ≠ id c ∧
    own_get s table = (if decide (s = proto_key) then None else Some (id cl)) ∧
    c ∈ g ∧
    (∃ tc pre post,
       mapping c = Some tc ∧
       bundle g = runtime_head +:+ pre +:+ pretty (id c) +:+ ": [
        function(require, module, exports) {
          " +:+ code c +:+ "
        },
        " +:+ JSON_stringify tc +:+ "
    ]," +:+ post +:+ runtime_tail) ∧
    (∀ b tb key, b ∈ g → mapping b = Some tb → own_get key tb ≠ Some (id c)).
Proof.
  intros (Hinv & _)%createGraph_invariant Hk Hj Hj' Hlt.
  destruct (graph_child _ _ _ _ _ _ Hinv Hk Hj) as (c & Hc & Hid & Hf & Hb).
  destruct (graph_child _ _ _ _ _ _ Hinv Hk Hj') as (c' & Hc' & Hid' & Hf' & Hb').
  pose proof (graph_mapping _ _ _ _ Hinv Hk) as Hm.
  assert (Hin : c ∈ g) by by eapply list_elem_of_lookup_2.
  destruct (last_index s (dependencies a)) as [jl|] eqn:Hlast; cycle 1.
  { apply last_index_None in Hlast. exfalso. apply Hlast.
    by eapply list_elem_of_lookup_2. }
  destruct (last_index_Some _ _ _ Hlast) as [Hjl Hafter].
  assert (Hjjl : j < jl).
  { destruct (decide (j < jl)); [done|].
    destruct (decide (jl = j')) as [->|]; [lia|].
    exfalso. apply (Hafter j'); [lia|done]. }
  destruct (graph_child _ _ _ _ _ _ Hinv Hk Hjl) as (cl & Hcl & Hidl & _ & _).
  exists c, c', (fill (dependencies a) (first + offset g k) []), jl, cl.
  split_and!; try done.
  - lia.
  - lia.
  - destruct (decide (s = proto_key)) as [->|Hs].
    + by rewrite own_get_fill_proto.
    + rewrite own_get_fill, Hlast by done. f_equal. lia.
  - destruct (bundle_split g c Hin) as (pre & post & Hbundle).
    exists (fill (dependencies c) (first + offset g (offset g k + j)) []), pre, post.
    pose proof (graph_mapping _ _ _ _ Hinv Hc) as Hmc.
    split; [done|].
    rewrite Hbundle. unfold module_entry. rewrite Hmc. cbn [stringify_mapping].
    by rewrite !append_assoc.
  - intros b tb key (kb & Hkb)%list_elem_of_lookup Hmb. rewrite Hid.
    by eapply graph_orphan.
Qed.

(** ** Failures *)

Lemma script_unfold fuel n :
  script fuel n =
  match createGraph fuel "./entry.js" n with
  | Returned graph n' => Returned (bundle graph) n'
  | Threw e n' => Threw e n'
  | Running => Running
  end.
Proof.
  unfold script, mbind, M_bind.
  by destruct (createGraph fuel "./entry.js" n).
Qed.

(** A specifier whose file cannot be loaded makes the [forEach] throw: at
    that specifier, unless an earlier one has failed already. *)
Lemma build_children_fails dir ss s table n :
  s ∈ ss → readFileGuessExtension (path_join dir s) = None →
  ∃ e n', build_children dir ss table n = Threw e n'.
Proof.
  intros Hin Hs. revert table n.
  induction ss as [|s' ss IH]; intros table n; [by apply elem_of_nil in Hin|].
  rewrite build_children_cons.
  destruct (createAsset (path_join dir s') n) as [c n1| |] eqn:Ec.
  - apply elem_of_cons in Hin as [->|Hin].
    + by rewrite createAsset_unfold, Hs in Ec.
    + destruct (IH Hin (obj_set s' (id c) table) n1) as (e & n' & ->). eauto.
  - eauto.
  - by apply createAsset_never_Running in Ec.
Qed.

Lemma build_children_fails_first dir before s after table n :
  Forall (λ d, ∃ specifiers c, compiles (path_join dir d) specifiers c) before →
  readFileGuessExtension (path_join dir s) = None →
  build_children dir (before ++ s :: after) table n =
  Threw NullContent (n + length before).
Proof.
  intros Hbefore Hs. revert table n.
  induction Hbefore as [|d before (specifiers & c & Hd) _ IH]; intros table n.
  - simpl app. rewrite build_children_cons, createAsset_unfold, Hs.
    simpl. f_equal. lia.
  - simpl app. rewrite build_children_cons, (createAsset_compiles _ _ _ n Hd), IH.
    simpl. f_equal. lia.
Qed.

(** The loop after its first [k] turns. *)
Lemma for_of_turns k fuel i q n q' n' :
  turns k i q n = Returned q' n' →
  for_of (k + S fuel) i q n = for_of (S fuel) (i + k) q' n'.
Proof.
  revert i q n. induction k as [|k IH]; intros i q n.
  - intros [= <- <-]. by rewrite Nat.add_0_r.
  - cbn [turns]. destruct (q !! i) as [a|] eqn:Hi.
    + intros (q1 & n1 & Ht & Hrest)%bind_inv_Returned.
      replace (S k + S fuel) with (S (k + S fuel)) by lia.
      rewrite (for_of_S _ _ _ _ _ Hi), Ht, (IH _ _ _ Hrest).
      f_equal. lia.
    + intros [= <- <-].
      replace (S k + S fuel) with (S (k + S fuel)) by lia.
      rewrite !for_of_end; [done| |done].
      apply lookup_ge_None. apply lookup_ge_None in Hi. lia.
Qed.

Lemma createGraph_fails_at k entry n q n1 a fuel e n2 :
  queue_after k entry n = Returned q n1 → q !! k = Some a →
  build_children (path_dirname (filename a)) (dependencies a) [] n1 = Threw e n2 →
  k < fuel → createGraph fuel entry n = Threw e n2.
Proof.
  unfold queue_after, createGraph.
  intros (main & n0 & Hmain & Hturns)%bind_inv_Returned Hk Hfail Hfuel.
  rewrite (bind_Returned _ _ _ _ _ Hmain).
  replace fuel with (k + S (fuel - S k)) by lia.
  rewrite (for_of_turns _ _ _ _ _ _ _ Hturns). simpl plus.
  by rewrite (for_of_S _ _ _ _ _ Hk), (turn_unfold _ _ _ _ Hk), Hfail.
Qed.

(** X15.  A path for which [readFileGuessExtension] gives [null] (the
    directory cannot be listed, or the file picked in it cannot be read) makes
    [createAsset] throw at the parse of [null], with [ID] untouched.  The
    failure is caught nowhere: (2) on the entry, [createGraph] throws it at
    once; (3) on a specifier of an asset that the loop reaches, [createGraph]
    throws in that turn, as soon as the fuel covers it, (4) that very failure
    when the specifiers before it have compiled; (5) and the script then
    prints no bundle. *)
Theorem load_failure_aborts :
  (∀ p n, readFileGuessExtension p = None → createAsset p n = Threw NullContent n) ∧
  (∀ fuel entry n,
     readFileGuessExtension entry = None →
     createGraph fuel entry n = Threw NullContent n) ∧
  (∀ k entry n q n1 a s fuel,
     queue_after k entry n = Returned q n1 → q !! k = Some a →
     s ∈ dependencies a →
     readFileGuessExtension (path_join (path_dirname (filename a)) s) = None →
     k < fuel →
     ∃ e n2, createGraph fuel entry n = Threw e n2) ∧
  (∀ k entry n q n1 a before s after fuel,
     queue_after k entry n = Returned q n1 → q !! k = Some a →
     dependencies a = before ++ s :: after →
     Forall (λ d, ∃ specifiers c,
               compiles (path_join (path_dirname (filename a)) d) specifiers c) before →
     readFileGuessExtension (path_join (path_dirname (filename a)) s) = None →
     k < fuel →
     createGraph fuel entry n = Threw NullContent (n1 + length before)) ∧
  (∀ fuel n e n',
     createGraph fuel "./entry.js" n = Threw e n' → script fuel n = Threw e n').
Proof.
  split_and!.
  - intros p n Hp. by rewrite createAsset_unfold, Hp.
  - intros fuel entry n Hp. unfold createGraph.
    apply bind_Threw. by rewrite createAsset_unfold, Hp.
  - intros k entry n q n1 a s fuel Hq Hk Hin Hs Hfuel.
    destruct (build_children_fails _ _ _ [] n1 Hin Hs) as (e & n2 & Hfail).
    exists e, n2. by eapply createGraph_fails_at.
  - intros k entry n q n1 a before s after fuel Hq Hk Hdeps Hbefore Hs Hfuel.
    eapply createGraph_fails_at; [done..| |done].
    rewrite Hdeps. by apply build_children_fails_first.
  - intros fuel n e n' Hg. by rewrite script_unfold, Hg.
Qed.

(** C9, amended.  When the directory of the path cannot be listed the result
    is [null].  When it can, and [x] is the first entry of the listing that
    starts with the base name of the path, the result is what reading the
    file [dir/x] gives: its text, or [null] when the read fails. *)
Theorem readFileGuessExtension_first_entry p :
  (readdirSync (path_dirname p) = None → readFileGuessExtension p = None) ∧
  (∀ pre x post,
     readdirSync (path_dirname p) = Some (pre ++ x :: post) →
     String.prefix (path_base p) x = true →
     Forall (λ y, String.prefix (path_base p) y = false) pre →
     readFileGuessExtension p = readFileSync (path_dirname p +:+ "/" +:+ x)).
Proof.
  unfold readFileGuessExtension. split.
  - by intros ->.
  - intros pre x post -> Hx Hpre. by rewrite find_prefixed_first.
Qed.

End Properties.

(** * Properties of the loader runtime *)

Section RuntimeProperties.
Context `{Host}.
Variable sem : string → nat → nat → body.

Lemma grows_refl σ : allocated σ → grows σ σ.
Proof. intros Ha. split_and!; [done..|]. exists []. by rewrite app_nil_r. Qed.

Lemma grows_trans σ1 σ2 σ3 : grows σ1 σ2 → grows σ2 σ3 → grows σ1 σ3.
Proof.
  intros (_ & Hn1 & m1 & He1) (Ha & Hn2 & m2 & He2).
  split_and!; [done|lia|]. exists (m1 ++ m2). by rewrite He2, He1, <- (assoc_L (++)).
Qed.

Lemma alloc_grows props σ :
  allocated σ →
  heap σ !! next σ = None ∧ grows σ (alloc props σ).2 ∧
  next (alloc props σ).2 = S (next σ).
Proof.
  intros Ha. split_and!; [| |done].
  - destruct (heap σ !! next σ) eqn:E; [|done].
    assert (next σ < next σ) by (apply Ha; by rewrite E). lia.
  - split_and!; simpl.
    + intros l. simpl. rewrite lookup_insert. case_decide; [lia|].
      intros Hl. apply Ha in Hl. lia.
    + lia.
    + exists []. by rewrite app_nil_r.
Qed.

Lemma write_grows l p v σ : allocated σ → grows σ (write l p v σ).
Proof.
  intros Ha. split_and!; simpl; [|done|].
  - intros l'. simpl. rewrite lookup_alter. case_decide; [|apply Ha].
    subst. intros [x Hx]. apply Ha.
    destruct (heap σ !! l'); [done|]. by simpl in Hx.
  - exists []. by rewrite app_nil_r.
Qed.

Lemma remove_grows l p σ : allocated σ → grows σ (remove l p σ).
Proof.
  intros Ha. split_and!; simpl; [|done|].
  - intros l'. simpl. rewrite lookup_alter. case_decide; [|apply Ha].
    subst. intros [x Hx]. apply Ha.
    destruct (heap σ !! l'); [done|]. by simpl in Hx.
  - exists []. by rewrite app_nil_r.
Qed.

Lemma print_grows line σ : allocated σ → grows σ (print line σ).
Proof. intros Ha. split_and!; [done..|]. exists []. by rewrite app_nil_r. Qed.

Lemma entered_grows i σ : allocated σ → grows σ (entered i σ).
Proof. intros Ha. split_and!; [done..|]. by exists [i]. Qed.

(** A body only adds to the state, if the [require] it is given does. *)
Lemma exec_grows localRequire b σ σ' :
  (∀ p σ1 σ2, allocated σ1 → ends_in (localRequire p σ1) σ2 → grows σ1 σ2) →
  allocated σ → ends_in (exec localRequire b σ) σ' → grows σ σ'.
Proof.
  intros Hreq. revert σ σ'.
  induction b as [| |e|block IHb handler IHh k IHk|p k IH|o p k IH|o p v k IH|o p k IH
                   |line k IH];
    intros σ σ' Ha; simpl.
  - intros <-. by apply grows_refl.
  - done.
  - intros <-. by apply grows_refl.
  - destruct (exec localRequire block σ) as [u σ1|e σ1| |] eqn:Eb; [| |done..].
    + intros Hk. assert (Hg : grows σ σ1) by (apply IHb; [done|by rewrite Eb]).
      eapply grows_trans; [done|]. apply IHk; [by destruct Hg|done].
    + assert (Hg : grows σ σ1) by (apply IHb; [done|by rewrite Eb]).
      assert (Ha1 : allocated σ1) by by destruct Hg.
      destruct (exec localRequire (handler e) σ1) as [u σ2|e' σ2| |] eqn:Eh; [| |done..].
      * intros Hk. assert (Hg' : grows σ1 σ2) by (apply (IHh e); [done|by rewrite Eh]).
        eapply grows_trans; [done|]. eapply grows_trans; [done|].
        apply IHk; [by destruct Hg'|done].
      * intros <-. eapply grows_trans; [done|]. apply (IHh e); [done|by rewrite Eh].
  - destruct (localRequire p σ) as [v σ1|e σ1| |] eqn:E; [| |done..].
    + intros Hk. assert (Hg : grows σ σ1) by (apply (Hreq p); [done|by rewrite E]).
      eapply grows_trans; [done|]. apply (IH v); [by destruct Hg|done].
    + intros <-. apply (Hreq p); [done|by rewrite E].
  - destruct o as [| |s|l]; simpl.
    + intros <-. by apply grows_refl.
    + by apply (IH VUndefined).
    + by apply (IH (default VUndefined (string_prop s p))).
    + by apply (IH (read l p σ)).
  - destruct o as [| | |l]; simpl; [by intros <-; apply grows_refl..|].
    intros Hk. pose proof (write_grows l p v σ Ha) as Hg.
    eapply grows_trans; [done|]. apply IH; [by destruct Hg|done].
  - destruct o as [| |s|l]; simpl.
    + intros <-. by apply grows_refl.
    + by apply IH.
    + destruct (string_prop s p); [|by apply IH]. intros <-. by apply grows_refl.
    + intros Hk. pose proof (remove_grows l p σ Ha) as Hg.
      eapply grows_trans; [done|]. apply IH; [by destruct Hg|done].
  - intros Hk. pose proof (print_grows line σ Ha) as Hg.
    eapply grows_trans; [done|]. apply IH; [by destruct Hg|done].
Qed.

Lemma modules_lookup_id graph i entry :
  modules_lookup graph i = Some entry → id entry = i.
Proof.
  unfold modules_lookup. intros Hf. apply find_some in Hf as [_ Hb].
  by apply bool_decide_eq_true in Hb.
Qed.

Lemma modules_lookup_in graph i entry :
  modules_lookup graph i = Some entry → entry ∈ graph.
Proof.
  unfold modules_lookup. intros Hf. apply find_some in Hf as [Hin _].
  apply list_elem_of_In in Hin. by rewrite elem_of_reverse in Hin.
Qed.

(** The unfolding of one call of [require] on a registered id. *)
Lemma require_S fuel graph i entry σ :
  modules_lookup graph i = Some entry →
  require sem (S fuel) graph (Some i) σ =
  let exports := next σ in
  let module := S (next σ) in
  let σ0 := entered (id entry)
              (alloc {[ "exports" := VObject exports ]} (alloc ∅ σ).2).2 in
  match exec (localRequire_of (require sem fuel graph) (mapping entry))
             (sem (code entry) module exports) σ0 with
  | RtReturned _ σ' => RtReturned (read module "exports" σ') σ'
  | RtThrew e σ' => RtThrew e σ'
  | RtForever => RtForever
  | RtRunning => RtRunning
  end.
Proof. intros Hl. simpl. by rewrite Hl. Qed.

(** A call of [require] that ends, either way, has only added to the state. *)
Lemma require_ends_grows fuel graph o σ σ' :
  allocated σ → ends_in (require sem fuel graph o σ) σ' → grows σ σ'.
Proof.
  revert o σ σ'. induction fuel as [|fuel IH]; intros o σ σ' Ha; [done|].
  destruct o as [i|]; [|by simpl; intros <-; apply grows_refl].
  destruct (modules_lookup graph i) as [entry|] eqn:Hl;
    [|by simpl; rewrite Hl; simpl; intros <-; apply grows_refl].
  rewrite (require_S _ _ _ _ _ Hl). cbv zeta.
  set (σ1 := (alloc ∅ σ).2).
  set (σ2 := (alloc {[ "exports" := VObject (next σ) ]} σ1).2).
  destruct (alloc_grows ∅ σ Ha) as (_ & Hg1 & Hn1). fold σ1 in Hg1, Hn1.
  assert (Ha1 : allocated σ1) by by destruct Hg1.
  destruct (alloc_grows {[ "exports" := VObject (next σ) ]} σ1 Ha1) as (_ & Hg2 & Hn2).
  fold σ2 in Hg2, Hn2.
  assert (Ha2 : allocated σ2) by by destruct Hg2.
  pose proof (entered_grows (id entry) σ2 Ha2) as Hg3.
  assert (Hg4 : ∀ σ3, ends_in (exec (localRequire_of (require sem fuel graph) (mapping entry))
                                    (sem (code entry) (S (next σ)) (next σ))
                                    (entered (id entry) σ2)) σ3 →
                      grows (entered (id entry) σ2) σ3).
  { intros σ3. apply exec_grows; [|by destruct Hg3].
    intros p s1 s2 Hs1. unfold localRequire_of.
    destruct (mapping entry) as [table|]; [by apply IH|].
    simpl. intros <-. by apply grows_refl. }
  destruct (exec _ _ _) as [u σ3|e σ3| |] eqn:E; simpl; [| |done..].
  - intros <-. specialize (Hg4 σ3 eq_refl). eauto using grows_trans.
  - intros <-. specialize (Hg4 σ3 eq_refl). eauto using grows_trans.
Qed.

Lemma require_grows fuel graph o σ v σ' :
  allocated σ → require sem fuel graph o σ = RtReturned v σ' →
  grows σ σ' ∧ next σ + 2 ≤ next σ' ∧
  ∃ i more, o = Some i ∧ executed σ' = executed σ ++ i :: more.
Proof.
  intros Ha Hr. split.
  { apply (require_ends_grows fuel graph o); [done|by rewrite Hr]. }
  destruct fuel as [|fuel]; [done|].
  destruct o as [i|]; [|done].
  destruct (modules_lookup graph i) as [entry|] eqn:Hl; [|by simpl in Hr; rewrite Hl in Hr].
  rewrite (require_S _ _ _ _ _ Hl) in Hr. cbv zeta in Hr.
  destruct (exec _ _ _) as [u σ3| | |] eqn:E; [|done..]. injection Hr as <- <-.
  destruct (alloc_grows ∅ σ Ha) as (_ & (Ha1 & _ & _) & Hn1).
  destruct (alloc_grows {[ "exports" := VObject (next σ) ]} _ Ha1) as (_ & (Ha2 & _ & _) & Hn2).
  assert (Hg4 : grows (entered (id entry)
                         (alloc {[ "exports" := VObject (next σ) ]} (alloc ∅ σ).2).2) σ3).
  { eapply exec_grows; [|by apply entered_grows|by rewrite E].
    intros p s1 s2 Hs1. unfold localRequire_of.
    destruct (mapping entry) as [table|]; [by apply require_ends_grows|].
    simpl. intros <-. by apply grows_refl. }
  destruct Hg4 as (_ & Hn & more & He). split.
  - simpl in Hn. lia.
  - exists i, more. split; [done|].
    rewrite He. simpl. rewrite <- (assoc_L (++)). simpl.
    by rewrite (modules_lookup_id _ _ _ Hl).
Qed.

Lemma runs_app i σ σ' more :
  executed σ' = executed σ ++ i :: more → S (runs i σ) ≤ runs i σ'.
Proof.
  intros He. unfold runs. rewrite He, filter_app, length_app, filter_cons_True by done.
  simpl. lia.
Qed.

(** The [exports] property of the objects that exist is left alone by
    bodies that assign no property of that name. *)
Lemma read_write_other l l' p v σ :
  p ≠ "exports" → read l "exports" (write l' p v σ) = read l "exports" σ.
Proof.
  intros Hp. unfold read, write. simpl. rewrite lookup_alter.
  case_decide; [|done]. subst.
  destruct (heap σ !! l) as [props|]; [|done]. simpl.
  by rewrite lookup_insert_ne.
Qed.

Lemma read_remove_other l l' p σ :
  p ≠ "exports" → read l "exports" (remove l' p σ) = read l "exports" σ.
Proof.
  intros Hp. unfold read, remove. simpl. rewrite lookup_alter.
  case_decide; [|done]. subst.
  destruct (heap σ !! l) as [props|]; [|done]. simpl.
  by rewrite lookup_delete_ne.
Qed.

Lemma read_alloc_other l props σ :
  l < next σ → read l "exports" (alloc props σ).2 = read l "exports" σ.
Proof.
  intros Hl. unfold read, alloc. simpl. rewrite lookup_insert_ne; [done|lia].
Qed.

Lemma exec_keeps localRequire b σ σ' l :
  keeps_exports b →
  (∀ p σ1 σ2, ends_in (localRequire p σ1) σ2 → l < next σ1 →
     read l "exports" σ2 = read l "exports" σ1 ∧ next σ1 ≤ next σ2) →
  l < next σ → ends_in (exec localRequire b σ) σ' →
  read l "exports" σ' = read l "exports" σ ∧ next σ ≤ next σ'.
Proof.
  intros Hb Hreq. revert σ σ' Hb.
  induction b as [| |e|block IHb handler IHh k IHk|p k IH|o p k IH|o p v k IH|o p k IH
                   |line k IH];
    intros σ σ' Hb Hl; simpl.
  - by intros <-.
  - done.
  - by intros <-.
  - destruct Hb as (Hbb & Hbh & Hbk).
    destruct (exec localRequire block σ) as [u σ1|e σ1| |] eqn:Eb; [| |done..].
    + intros Hk.
      destruct (IHb σ σ1 Hbb Hl) as [Hr1 Hn1]; [by rewrite Eb|].
      destruct (IHk σ1 σ' Hbk ltac:(lia) Hk) as [Hr2 Hn2].
      split; [congruence|lia].
    + destruct (IHb σ σ1 Hbb Hl) as [Hr1 Hn1]; [by rewrite Eb|].
      destruct (exec localRequire (handler e) σ1) as [u σ2|e' σ2| |] eqn:Eh; [| |done..].
      * intros Hk.
        destruct (IHh e σ1 σ2 (Hbh e) ltac:(lia)) as [Hr2 Hn2]; [by rewrite Eh|].
        destruct (IHk σ2 σ' Hbk ltac:(lia) Hk) as [Hr3 Hn3].
        split; [congruence|lia].
      * intros <-.
        destruct (IHh e σ1 σ2 (Hbh e) ltac:(lia)) as [Hr2 Hn2]; [by rewrite Eh|].
        split; [congruence|lia].
  - destruct (localRequire p σ) as [v σ1|e σ1| |] eqn:E; [| |done..].
    + intros Hk. destruct (Hreq p σ σ1) as [Hr Hn]; [by rewrite E|done|].
      destruct (IH v σ1 σ' (Hb v) ltac:(lia) Hk) as [Hr' Hn'].
      split; [congruence|lia].
    + intros <-. apply (Hreq p); [by rewrite E|done].
  - destruct o as [| |s|l']; simpl.
    + by intros <-.
    + by apply (IH VUndefined).
    + by apply (IH (default VUndefined (string_prop s p))).
    + by apply (IH (read l' p σ)).
  - destruct o as [| | |l']; simpl; [by intros <-..|]. destruct Hb as [Hp Hb].
    intros Hk. destruct (IH (write l' p v σ) σ' Hb Hl Hk) as [Hr Hn].
    split; [|done]. by rewrite Hr, read_write_other.
  - destruct Hb as [Hp Hb]. destruct o as [| |s|l']; simpl.
    + by intros <-.
    + by apply IH.
    + destruct (string_prop s p); [by intros <-|by apply IH].
    + intros Hk. destruct (IH (remove l' p σ) σ' Hb Hl Hk) as [Hr Hn].
      split; [|done]. by rewrite Hr, read_remove_other.
  - intros Hk. by apply (IH (print line σ) σ' Hb Hl Hk).
Qed.

Lemma require_keeps fuel graph o σ σ' l :
  (∀ a, a ∈ graph → ∀ module exports, keeps_exports (sem (code a) module exports)) →
  ends_in (require sem fuel graph o σ) σ' → l < next σ →
  read l "exports" σ' = read l "exports" σ ∧ next σ ≤ next σ'.
Proof.
  intros Hsem. revert o σ σ'.
  induction fuel as [|fuel IH]; intros o σ σ'; [done|].
  destruct o as [i|]; [|by simpl; intros <-].
  destruct (modules_lookup graph i) as [entry|] eqn:Hl;
    [|by simpl; rewrite Hl; simpl; intros <-].
  rewrite (require_S _ _ _ _ _ Hl). cbv zeta.
  intros Hend Hlt.
  assert (Hreq : ∀ p s1 s2,
    ends_in (localRequire_of (require sem fuel graph) (mapping entry) p s1) s2 →
    l < next s1 → read l "exports" s2 = read l "exports" s1 ∧ next s1 ≤ next s2).
  { intros p s1 s2. unfold localRequire_of.
    destruct (mapping entry) as [table|]; [apply IH|]. simpl. by intros <-. }
  assert (Hexec : ends_in (exec (localRequire_of (require sem fuel graph) (mapping entry))
                    (sem (code entry) (S (next σ)) (next σ))
                    (entered (id entry)
                       (alloc {[ "exports" := VObject (next σ) ]} (alloc ∅ σ).2).2)) σ').
  { destruct (exec _ _ _) as [u σ3|e σ3| |]; done. }
  eapply (exec_keeps _ _ _ _ l) in Hexec;
    [|by apply Hsem, (modules_lookup_in _ _ _ Hl)|exact Hreq|simpl; lia].
  destruct Hexec as [Hr Hn].
  split; [|simpl in Hn; lia].
  rewrite Hr. unfold read. simpl.
  rewrite !lookup_insert_ne by lia. done.
Qed.

(** C7, amended.  Every call of [require] on an id that returns, direct or
    nested, has made two objects that did not exist before the call (an
    exports object with no property and a module object holding it), has
    entered the body of the module once more and run it on these two
    objects, and returns what the [exports] property of that new module
    object holds when the body is done.  That is the new exports object
    itself when no module of the bundle assigns or deletes a property called
    [exports] (none replaces [module.exports]); a body that assigns
    [module.exports] makes [require] return what it assigned.  Nothing is
    kept from one call for the next: of two calls in a row, each enters the
    body, and the second runs it on objects that the first did not have. *)
Theorem require_no_cache :
  (∀ fuel graph i σ v σ',
     allocated σ → require sem fuel graph (Some i) σ = RtReturned v σ' →
     ∃ entry fuel',
       fuel = S fuel' ∧ modules_lookup graph i = Some entry ∧
       heap σ !! next σ = None ∧ heap σ !! S (next σ) = None ∧
       (∃ σ0,
          heap σ0 = <[S (next σ) := {[ "exports" := VObject (next σ) ]}]>
                      (<[next σ := ∅]> (heap σ)) ∧
          executed σ0 = executed σ ++ [i] ∧
          exec (localRequire_of (require sem fuel' graph) (mapping entry))
               (sem (code entry) (S (next σ)) (next σ)) σ0 = RtReturned () σ') ∧
       v = read (S (next σ)) "exports" σ' ∧
       S (runs i σ) ≤ runs i σ') ∧
  (∀ fuel graph i σ v1 σ1 v2 σ2,
     allocated σ →
     require sem fuel graph (Some i) σ = RtReturned v1 σ1 →
     require sem fuel graph (Some i) σ1 = RtReturned v2 σ2 →
     2 + runs i σ ≤ runs i σ2 ∧
     next σ < next σ1 ∧
     heap σ1 !! next σ1 = None ∧ heap σ1 !! S (next σ1) = None ∧
     v2 = read (S (next σ1)) "exports" σ2) ∧
  (∀ fuel graph i σ v σ',
     (∀ a, a ∈ graph → ∀ module exports, keeps_exports (sem (code a) module exports)) →
     require sem fuel graph (Some i) σ = RtReturned v σ' →
     v = VObject (next σ)).
Proof.
  assert (Hone : ∀ fuel graph i σ v σ',
     allocated σ → require sem fuel graph (Some i) σ = RtReturned v σ' →
     ∃ entry fuel',
       fuel = S fuel' ∧ modules_lookup graph i = Some entry ∧
       heap σ !! next σ = None ∧ heap σ !! S (next σ) = None ∧
       (∃ σ0,
          heap σ0 = <[S (next σ) := {[ "exports" := VObject (next σ) ]}]>
                      (<[next σ := ∅]> (heap σ)) ∧
          executed σ0 = executed σ ++ [i] ∧
          exec (localRequire_of (require sem fuel' graph) (mapping entry))
               (sem (code entry) (S (next σ)) (next σ)) σ0 = RtReturned () σ') ∧
       v = read (S (next σ)) "exports" σ' ∧
       S (runs i σ) ≤ runs i σ').
  { intros fuel graph i σ v σ' Ha Hr.
    destruct (require_grows _ _ _ _ _ _ Ha Hr) as (_ & _ & i' & more & [= <-] & He).
    destruct fuel as [|fuel']; [done|].
    destruct (modules_lookup graph i) as [entry|] eqn:Hl; [|by simpl in Hr; rewrite Hl in Hr].
    rewrite (require_S _ _ _ _ _ Hl) in Hr. cbv zeta in Hr.
    destruct (exec _ _ _) as [[] σ3| | |] eqn:E; [|done..]. injection Hr as <- <-.
    exists entry, fuel'. split_and!; try done.
    - by destruct (alloc_grows ∅ σ Ha).
    - destruct (heap σ !! S (next σ)) eqn:E'; [|done].
      assert (S (next σ) < next σ) by (apply Ha; by rewrite E'). lia.
    - eexists. split_and!; [| |exact E]; [done|].
      simpl. by rewrite (modules_lookup_id _ _ _ Hl).
    - by eapply runs_app. }
  split_and!; [exact Hone| |].
  - intros fuel graph i σ v1 σ1 v2 σ2 Ha H1 H2.
    destruct (require_grows _ _ _ _ _ _ Ha H1) as ((Ha1 & _ & _) & Hn1 & _).
    destruct (Hone _ _ _ _ _ _ Ha H1) as (_ & _ & _ & _ & _ & _ & _ & _ & Hr1).
    destruct (Hone _ _ _ _ _ _ Ha1 H2) as (_ & _ & _ & _ & Hf1 & Hf2 & _ & Hv2 & Hr2).
    split_and!; [lia|lia|done..].
  - intros fuel graph i σ v σ' Hsem Hr.
    destruct fuel as [|fuel']; [done|].
    destruct (modules_lookup graph i) as [entry|] eqn:Hl; [|by simpl in Hr; rewrite Hl in Hr].
    rewrite (require_S _ _ _ _ _ Hl) in Hr. cbv zeta in Hr.
    destruct (exec _ _ _) as [u σ3| | |] eqn:E; [|done..]. injection Hr as <- <-.
    assert (Hreq : ∀ p s1 s2,
      ends_in (localRequire_of (require sem fuel' graph) (mapping entry) p s1) s2 →
      S (next σ) < next s1 →
      read (S (next σ)) "exports" s2 = read (S (next σ)) "exports" s1 ∧ next s1 ≤ next s2).
    { intros p s1 s2. unfold localRequire_of.
      destruct (mapping entry) as [table|]; [by apply require_keeps|].
      simpl. by intros <-. }
    assert (Hexec : ends_in (exec (localRequire_of (require sem fuel' graph) (mapping entry))
                      (sem (code entry) (S (next σ)) (next σ))
                      (entered (id entry)
                         (alloc {[ "exports" := VObject (next σ) ]} (alloc ∅ σ).2).2)) σ3)
      by by rewrite E.
    eapply (exec_keeps _ _ _ _ (S (next σ))) in Hexec;
      [|by apply Hsem, (modules_lookup_in _ _ _ Hl)|exact Hreq|simpl; lia].
    destruct Hexec as [Hr _].
    rewrite Hr. unfold read. simpl. by rewrite lookup_insert_eq.
Qed.

(** C8.  A [require] of a specifier that is no key of the mapping of the
    module fails when the bundle runs, at that call: [mapping[p]] is not a
    module id, and [require] throws on it.  The build does not look at the
    calls of [require] in the code it bundles: a file with no import
    declaration is built and bundled whatever its code does, and the error
    comes when the bundle is executed. *)
Theorem absent_specifier_fails_at_run_time :
  (∀ fuel graph table p k σ,
     own_get p table = None →
     exec (localRequire_of (require sem (S fuel) graph) (Some table)) (Require p k) σ =
     RtThrew NotIterable σ) ∧
  (∀ fuel graph i entry table p k σ,
     modules_lookup graph i = Some entry → mapping entry = Some table →
     own_get p table = None →
     (∀ module exports, sem (code entry) module exports = Require p (k module exports)) →
     ∃ σ', require sem (2 + fuel) graph (Some i) σ = RtThrew NotIterable σ' ∧
           executed σ' = executed σ ++ [i]) ∧
  (∀ c p k fuel fuel',
     compiles "./entry.js" [] c →
     (∀ module exports, sem c module exports = Require p (k module exports)) →
     let graph := [mkAsset 0 "./entry.js" [] c (Some [])] in
     createGraph (2 + fuel) "./entry.js" 0 = Returned graph 1 ∧
     script (2 + fuel) 0 = Returned (bundle graph) 1 ∧
     ∃ σ', run_bundle sem (2 + fuel') graph = RtThrew NotIterable σ').
Proof.
  assert (Hcall : ∀ fuel graph table p k σ,
     own_get p table = None →
     exec (localRequire_of (require sem (S fuel) graph) (Some table)) (Require p k) σ =
     RtThrew NotIterable σ).
  { intros fuel graph table p k σ Hp. simpl. by rewrite Hp. }
  assert (Hmod : ∀ fuel graph i entry table p k σ,
     modules_lookup graph i = Some entry → mapping entry = Some table →
     own_get p table = None →
     (∀ module exports, sem (code entry) module exports = Require p (k module exports)) →
     ∃ σ', require sem (2 + fuel) graph (Some i) σ = RtThrew NotIterable σ' ∧
           executed σ' = executed σ ++ [i]).
  { intros fuel graph i entry table p k σ Hl Hm Hp Hbody.
    replace (2 + fuel) with (S (S fuel)) by lia.
    rewrite (require_S _ _ _ _ _ Hl). cbv zeta.
    rewrite Hbody, Hm, Hcall by done.
    eexists. split; [done|]. simpl. by rewrite (modules_lookup_id _ _ _ Hl). }
  split_and!; [exact Hcall|exact Hmod|].
  intros c p k fuel fuel' Hc Hbody graph.
  assert (Hg : createGraph (2 + fuel) "./entry.js" 0 = Returned graph 1).
  { unfold createGraph.
    rewrite (bind_Returned _ _ _ _ _ (createAsset_compiles _ _ _ 0 Hc)).
    apply (for_of_more_fuel 2 fuel).
    erewrite for_of_S by done. rewrite turn_unfold by done. cbn -[for_of].
    by rewrite for_of_end. }
  split_and!; [done|by rewrite script_unfold, Hg|].
  destruct (Hmod fuel' graph 0 (mkAsset 0 "./entry.js" [] c (Some [])) [] p k realm0)
    as (σ' & Hr & _); [done..|]. by exists σ'.
Qed.

End RuntimeProperties.

(** * The properties at work on the small host *)

Module Examples.
Import Demo.

(** Proves a [compiles] fact of the small host by running it. *)
Ltac compiles_here :=
  do 2 eexists; split_and!; vm_compute; reflexivity.

Lemma allocated_realm0 : allocated realm0.
Proof. intros l [x Hx]. simpl in Hx. by rewrite lookup_empty in Hx. Qed.

(** C1: the first build of a process, on the chain project. *)
Lemma createGraph_ids_witness :
  ∃ g,
    createGraph (H := host chain) 10 "./entry.js" 0 = Returned g 3 ∧
    id <$> g = [0; 1; 2] ∧
    (id <$> g = seq 0 (length g) ∧ NoDup (id <$> g) ∧ 3 = 0 + length g ∧
     ∃ a rest, g = a :: rest ∧ id a = 0 ∧ filename a = "./entry.js").
Proof.
  eexists. split; [vm_compute; reflexivity|]. split; [reflexivity|].
  apply (createGraph_ids (H := host chain) 10 "./entry.js" 0 _ 3).
  vm_compute. reflexivity.
Defined.

(** C1: a second build in the same process does not start at 0. *)
Lemma second_build_ids :
  ∃ g1 g2,
    createGraph_twice (H := host chain) 10 "./entry.js" 0 = Returned (g1, g2) 6 ∧
    id <$> g1 = [0; 1; 2] ∧
    id <$> g2 = [3; 4; 5] ∧
    id <$> g2 ≠ seq 0 (length g2) ∧
    id <$> head g2 = Some 3.
Proof.
  do 2 eexists. split; [vm_compute; reflexivity|].
  split_and!; [reflexivity..|discriminate|reflexivity].
Qed.

(** X15: [a] imports a file that does not exist. *)
Lemma load_failure_aborts_witness :
  readFileGuessExtension (H := host broken) "missing" = None ∧
  createAsset (H := host broken) "missing" 7 = Threw NullContent 7 ∧
  createGraph (H := host broken) 10 "./entry.js" 0 = Threw NullContent 2 ∧
  script (H := host broken) 10 0 = Threw NullContent 2.
Proof.
  destruct (load_failure_aborts (H := host broken)) as (H1 & _ & _ & H4 & H5).
  assert (Hmissing : readFileGuessExtension (H := host broken) "missing" = None)
    by (vm_compute; reflexivity).
  assert (Hg : createGraph (H := host broken) 10 "./entry.js" 0 = Threw NullContent 2).
  { eapply (H4 1 "./entry.js" 0 _ 2 _ [] "./missing" []).
    - vm_compute. reflexivity.
    - reflexivity.
    - reflexivity.
    - constructor.
    - vm_compute. reflexivity.
    - lia. }
  split_and!; [exact Hmissing|by apply H1|exact Hg|by apply H5].
Defined.

(** C3: the chain entry -> "./a" -> "./b" on the small host. *)
Lemma createGraph_fifo_witness :
  createGraph (H := host chain) 10 "./entry.js" 0 = Returned chain_assets 3 ∧
  spec_build_graph (H := host chain) 10 "./entry.js" 0 =
  createGraph (H := host chain) 10 "./entry.js" 0.
Proof.
  destruct (createGraph_fifo (H := host chain)) as (Hspec & _ & Hchain).
  split; [|by rewrite Hspec].
  apply (Hchain "./entry.js" _ _ _ 6); compiles_here.
Defined.

(** C4: "./shared" and "./lib/../shared" are the same file. *)
Lemma createGraph_no_dedup_witness :
  createGraph (H := host diamond) 10 "./entry.js" 0 = Returned diamond_assets 3 ∧
  ∃ c1 c2,
    diamond_assets !! 1 = Some c1 ∧ diamond_assets !! 2 = Some c2 ∧
    filename c1 = "shared" ∧ filename c2 = "shared" ∧
    id c1 ≠ id c2 ∧ code c1 = code c2.
Proof.
  assert (Hg : createGraph (H := host diamond) 10 "./entry.js" 0 = Returned diamond_assets 3)
    by (vm_compute; reflexivity).
  split; [exact Hg|].
  destruct (createGraph_no_dedup (H := host diamond) 10 "./entry.js" 0
              diamond_assets 3 0 0 diamond_entry diamond_entry 0 1
              "./shared" "./lib/../shared" Hg)
    as (c1 & c2 & H1 & H2 & _ & Hid & _ & _ & _ & Hcode);
    [reflexivity..|discriminate|vm_compute; reflexivity|].
  exists c1, c2. vm_compute in H1, H2.
  split_and!; [exact H1|exact H2| | |exact Hid|exact Hcode].
  - by injection H1 as <-.
  - by injection H2 as <-.
Defined.

(** C5: a specifier [__proto__] is left out of the mapping, and the bundle
    fails on it when run. *)
Theorem proto_specifier_not_recorded :
  ∃ g a,
    createGraph (H := host proto) 10 "./entry.js" 0 = Returned g 2 ∧
    g !! 0 = Some a ∧
    dependencies a = ["__proto__"] ∧
    mapping a = Some [] ∧
    id <$> g = [0; 1] ∧
    (∃ σ, run_bundle sem 10 g = RtThrew NotIterable σ ∧ executed σ = [0]).
Proof.
  do 2 eexists. split; [vm_compute; reflexivity|].
  split_and!; [reflexivity..|].
  eexists. split; vm_compute; reflexivity.
Qed.

(** C6: two bundles of the chain project, in two states of the process. *)
Lemma bundle_deterministic_witness :
  ∃ g,
    createGraph (H := host chain) 10 "./entry.js" 0 = Returned g 3 ∧
    bundle_twice (H := host chain) g 3 =
    Returned (bundle (H := host chain) g, bundle (H := host chain) g) 3.
Proof.
  eexists. split; [vm_compute; reflexivity|].
  apply (bundle_deterministic (H := host chain)).
Defined.

(** C7: module 1 is required twice by the entry and its body runs twice;
    no module of this bundle assigns [module.exports], and each call returns
    the exports object it has made. *)
Lemma require_no_cache_witness :
  createGraph (H := host rerun) 10 "./entry.js" 0 = Returned rerun_assets 2 ∧
  (∃ σ, run_bundle sem 10 rerun_assets = RtReturned (VObject 0) σ ∧
        console σ = ["a"; "a"] ∧ executed σ = [0; 1; 1]) ∧
  ∃ v1 σ1 v2 σ2,
    require sem 10 rerun_assets (Some 1) realm0 = RtReturned v1 σ1 ∧
    require sem 10 rerun_assets (Some 1) σ1 = RtReturned v2 σ2 ∧
    v1 ≠ v2 ∧
    (2 + runs 1 realm0 ≤ runs 1 σ2 ∧ next realm0 < next σ1 ∧
     heap σ1 !! next σ1 = None ∧ heap σ1 !! S (next σ1) = None ∧
     v2 = read (S (next σ1)) "exports" σ2) ∧
    v1 = VObject (next realm0) ∧ v2 = VObject (next σ1).
Proof.
  split; [vm_compute; reflexivity|].
  split; [eexists; split; [vm_compute; reflexivity|split; reflexivity]|].
  assert (Hkeeps : ∀ a, a ∈ rerun_assets →
            ∀ module exports, keeps_exports (sem (code a) module exports)).
  { intros a Ha module exports. unfold rerun_assets in Ha.
    apply elem_of_cons in Ha as [->|Ha]; [vm_compute; done|].
    apply list_elem_of_singleton in Ha as ->. vm_compute. done. }
  do 4 eexists.
  split; [vm_compute; reflexivity|].
  split; [vm_compute; reflexivity|]. split; [discriminate|].
  split; [|split].
  - eapply (proj1 (proj2 (require_no_cache sem)) 10 rerun_assets 1 realm0).
    + exact allocated_realm0.
    + vm_compute. reflexivity.
    + vm_compute. reflexivity.
  - eapply (proj2 (proj2 (require_no_cache sem)) 10 rerun_assets 1 realm0 _ _ Hkeeps).
    vm_compute. reflexivity.
  - eapply (proj2 (proj2 (require_no_cache sem)) 10 rerun_assets 1 _ _ _ Hkeeps).
    vm_compute. reflexivity.
Defined.

(** C8: the entry requires "./ghost", which it does not import. *)
Lemma absent_specifier_witness :
  createGraph (H := host ghost) 10 "./entry.js" 0 = Returned ghost_assets 1 ∧
  script (H := host ghost) 10 0 = Returned (bundle (H := host ghost) ghost_assets) 1 ∧
  ∃ σ, run_bundle sem 10 ghost_assets = RtThrew NotIterable σ.
Proof.
  apply (proj2 (proj2 (absent_specifier_fails_at_run_time (H := host ghost) sem))
           (text ["require ./ghost"; "log unreachable"]) "./ghost"
           (λ module exports _, Log "unreachable" Done) 8 8).
  - compiles_here.
  - intros module exports. reflexivity.
Defined.

(** C9: "./b" on the chain project: the first entry that starts with [b]. *)
Lemma readFileGuessExtension_witness :
  readFileGuessExtension (H := host chain) "./b" = Some (text ["log b"]).
Proof.
  rewrite (proj2 (readFileGuessExtension_first_entry (H := host chain) "./b")
             ["a.js"] "b.js" ["entry.js"]).
  - vm_compute. reflexivity.
  - vm_compute. reflexivity.
  - vm_compute. reflexivity.
  - repeat constructor.
Defined.

(** C9: the directory can be listed and holds a file [a.js] that starts with
    [a] and can be read, and the result is [null]: the sub-directory [a]
    comes first in the listing and cannot be read as a file. *)
Lemma shadowed_file_not_found :
  readdirSync (Host := host shadowed) (path_dirname (Host := host shadowed) "./a")
    = Some ["a"; "a.js"] ∧
  path_base (Host := host shadowed) "./a" = "a" ∧
  String.prefix "a" "a.js" = true ∧
  readFileSync (Host := host shadowed) "./a.js" = Some (text ["log a"]) ∧
  readFileGuessExtension (H := host shadowed) "./a" = None.
Proof. split_and!; vm_compute; reflexivity. Qed.

(** No entry of the listing starts with [a]; the file read is the one called
    [undefined]. *)
Example stray_file_is_read :
  find_prefixed "a" ["b.js"; "undefined"] = None ∧
  readFileGuessExtension (H := host stray) "./a" = Some (text ["log stray"]).
Proof. split; vm_compute; reflexivity. Qed.

(** X14: "./a" is imported twice: the mapping of the entry holds the id 2,
    and module 1 is in the bundle and in no mapping. *)
Lemma duplicate_specifier_witness :
  createGraph (H := host repeated) 10 "./entry.js" 0 = Returned repeated_assets 3 ∧
  mapping repeated_entry = Some [("./a", 2)] ∧
  (∃ pre post,
     bundle (H := host repeated) repeated_assets = runtime_head +:+ pre +:+ "1: [
        function(require, module, exports) {
          log a
        },
        {}
    ]," +:+ post +:+ runtime_tail) ∧
  ∀ b tb key, b ∈ repeated_assets → mapping b = Some tb → own_get key tb ≠ Some 1.
Proof.
  assert (Hg : createGraph (H := host repeated) 10 "./entry.js" 0
               = Returned repeated_assets 3) by (vm_compute; reflexivity).
  split; [exact Hg|]. split; [reflexivity|].
  destruct (duplicate_specifier_orphan (H := host repeated) 10 "./entry.js" 0
              repeated_assets 3 0 repeated_entry 0 1 "./a" Hg)
    as (c & c' & table & jl & cl & Hc & _ & _ & _ & _ & _ & _ & _ & _ & _ & _ & _ & _ & _
        & Htext & Horphan);
    [reflexivity..|lia|].
  assert (Hc1 : mkAsset 1 "a" [] (text ["log a"]) (Some []) = c)
    by (vm_compute in Hc; vm_compute; congruence).
  destruct Hc1. split; [|exact Horphan].
  destruct Htext as (tc & pre & post & Hmc & Hbundle).
  assert (Htc : [] = tc) by (simpl in Hmc; congruence).
  destruct Htc. exists pre, post. exact Hbundle.
Defined.

(** C10: [__proto__] is imported twice.  A child is built for each of the
    two occurrences, and the mapping of the entry records the id of neither:
    not the id of the child of the last occurrence either.  The bundle holds
    the three modules and fails at the first [require]. *)
Theorem repeated_proto_specifier_records_no_id :
  createGraph (H := host proto_twice) 10 "./entry.js" 0 = Returned proto_twice_assets 3 ∧
  (∃ a c c',
     proto_twice_assets !! 0 = Some a ∧
     dependencies a = ["__proto__"; "__proto__"] ∧
     proto_twice_assets !! 1 = Some c ∧ proto_twice_assets !! 2 = Some c' ∧
     filename c = "__proto__" ∧ filename c' = "__proto__" ∧
     id c = 1 ∧ id c' = 2 ∧
     mapping a = Some [] ∧
     own_get "__proto__" [] = None) ∧
  script (H := host proto_twice) 10 0 = Returned "
    (function(modules) {
      function require(id) {
        const [fn, mapping] = modules[id];

        function localRequire(relativePath) {
          return require(mapping[relativePath]);
        }

        const module = { exports: {} };

        fn(localRequire, module, module.exports);

        return module.exports;
      }

      require(0);
    })({0: [
        function(require, module, exports) {
          require __proto__
require __proto__
        },
        {}
    ],1: [
        function(require, module, exports) {
          log proto
        },
        {}
    ],2: [
        function(require, module, exports) {
          log proto
        },
        {}
    ],})
  " 3 ∧
  (∃ σ, run_bundle sem 10 proto_twice_assets = RtThrew NotIterable σ ∧ executed σ = [0]).
Proof.
  split; [vm_compute; reflexivity|]. split.
  - do 3 eexists. split_and!; reflexivity.
  - split; [vm_compute; reflexivity|].
    eexists. split; vm_compute; reflexivity.
Qed.

(** C2: the entry imports [./missing].  The directory can be listed and no
    entry of it starts with [missing]; the loader then reads the file called
    [undefined].  Nothing fails: the asset of the missing file is built from
    the text of that other file, the graph is complete, and the script prints
    a bundle. *)
Theorem missing_import_is_bundled :
  readdirSync (Host := host stray_import) (path_dirname (Host := host stray_import) "missing")
    = Some ["entry.js"; "undefined"] ∧
  path_base (Host := host stray_import) "missing" = "missing" ∧
  find_prefixed "missing" ["entry.js"; "undefined"] = None ∧
  readFileGuessExtension (H := host stray_import) "missing" = Some (text ["log stray"]) ∧
  createAsset (H := host stray_import) "missing" 1 =
    Returned (mkAsset 1 "missing" [] (text ["log stray"]) None) 2 ∧
  createGraph (H := host stray_import) 10 "./entry.js" 0 = Returned stray_import_assets 2 ∧
  script (H := host stray_import) 10 0 =
    Returned (bundle (H := host stray_import) stray_import_assets) 2 ∧
  (∃ pre post,
     bundle (H := host stray_import) stray_import_assets = pre +:+ "1: [
        function(require, module, exports) {
          log stray
        },
        {}
    ]," +:+ post).
Proof.
  split_and!; try (vm_compute; reflexivity).
  exists (runtime_head +:+
          foldl (λ modules module, modules +:+ module_entry (H := host stray_import) module)
                "" (take 1 stray_import_assets)),
         runtime_tail.
  vm_compute. reflexivity.
Qed.

(** C7: the only module assigns [module.exports = 7]: [require(0)] returns
    7, which is not the exports object made for the call (the object 0, still
    without a property when the call returns). *)
Lemma replaced_exports_returned :
  createGraph (H := host replaced) 10 "./entry.js" 0 = Returned replaced_assets 1 ∧
  ∃ σ,
    require sem 10 replaced_assets (Some 0) realm0 = RtReturned (VNumber 7) σ ∧
    run_bundle sem 10 replaced_assets = RtReturned (VNumber 7) σ ∧
    executed σ = [0] ∧
    next realm0 = 0 ∧
    heap σ !! 0 = Some ∅ ∧
    heap σ !! 1 = Some {[ "exports" := VNumber 7 ]} ∧
    VNumber 7 ≠ VObject (next realm0).
Proof.
  split; [vm_compute; reflexivity|].
  eexists. split; [vm_compute; reflexivity|].
  split_and!; [vm_compute; reflexivity|reflexivity..|discriminate].
Qed.

End Examples.

(** * Further properties of the graph *)

Section GraphProperties.
Context `{Host}.

(** A file compiles to one thing. *)
Lemma compiles_functional p specifiers specifiers' c c' :
  compiles p specifiers c → compiles p specifiers' c' →
  specifiers = specifiers' ∧ c = c'.
Proof.
  intros (t & tr & Ht & Hp & Hs & Hc) (t' & tr' & Ht' & Hp' & Hs' & Hc').
  rewrite Ht in Ht'. injection Ht' as <-.
  rewrite Hp in Hp'. injection Hp' as <-.
  split; congruence.
Qed.

(** The children of an asset start after the asset itself. *)
Lemma for_of_forward fuel first i q g n' :
  invariant first i q → (∀ k, k < i → k < offset q k) →
  for_of fuel i q (first + length q) = Returned g n' →
  ∀ k, k < length g → k < offset g k.
Proof.
  revert i q. induction fuel as [|fuel IH]; intros i q Hinv Hfw; simpl; [done|].
  destruct (q !! i) as [a|] eqn:Hi.
  - intros (q' & n1 & Ht & Hrest)%bind_inv_Returned.
    rewrite (turn_unfold _ _ _ _ Hi) in Ht.
    destruct (build_children _ _ _ _) as [r n2| |] eqn:Er; [|done..].
    injection Ht as <- <-.
    destruct (invariant_step _ _ _ _ _ _ Hinv Hi Er) as [Hinv' ->].
    apply (IH _ _ Hinv'); [|done].
    assert (Hlt : i < length q) by by eapply lookup_lt_Some.
    intros k Hk.
    rewrite offset_app by (rewrite length_insert; lia).
    rewrite (offset_insert _ _ a) by done.
    destruct (decide (k = i)) as [->|]; [|apply Hfw; lia].
    destruct Hinv as [_ _ Hlen _ _ _]. lia.
  - intros [= <- <-] k Hk. apply Hfw.
    apply lookup_ge_None in Hi. destruct Hinv as [_ Hbound _ _ _ _]. lia.
Qed.

Lemma createGraph_forward fuel entry first g last :
  createGraph fuel entry first = Returned g last →
  ∀ k, k < length g → k < offset g k.
Proof.
  unfold createGraph. intros (a & n1 & Ea & Hloop)%bind_inv_Returned.
  destruct (invariant_init _ _ _ _ Ea) as (Hinv & -> & _).
  eapply (for_of_forward fuel first 0 [a]); [done| |done].
  intros k Hk. lia.
Qed.

(** Every slot but the first is in the block of children of some asset. *)
Lemma slot_parent g m p :
  m ≤ length g → 1 ≤ p → p < offset g m →
  ∃ k a j, k < m ∧ g !! k = Some a ∧ j < length (dependencies a) ∧ p = offset g k + j.
Proof.
  induction m as [|m IH]; intros Hm Hp Hlt.
  - unfold offset in Hlt. simpl in Hlt. lia.
  - destruct (lookup_lt_is_Some_2 g m ltac:(lia)) as [a Ha].
    rewrite (offset_S _ _ _ Ha) in Hlt.
    destruct (decide (p < offset g m)) as [Hlt'|Hge].
    + destruct (IH ltac:(lia) Hp Hlt') as (k & b & j & ? & ? & ? & ?).
      exists k, b, j. split_and!; [lia|done..].
    + exists m, a, (p - offset g m). split_and!; [lia|done|lia|lia].
Qed.

(** The registry of the bundle finds each asset of the graph under its id. *)
Lemma modules_lookup_graph first g p c :
  id <$> g = seq first (length g) → g !! p = Some c →
  modules_lookup g (id c) = Some c.
Proof.
  intros Hids Hp. unfold modules_lookup.
  destruct (List.find _ _) as [c'|] eqn:Hf.
  - apply find_some in Hf as [Hin Hb]. apply bool_decide_eq_true in Hb.
    apply list_elem_of_In in Hin. rewrite elem_of_reverse in Hin.
    apply list_elem_of_lookup in Hin as [p' Hp'].
    rewrite (ids_lookup _ _ _ _ Hids Hp), (ids_lookup _ _ _ _ Hids Hp') in Hb.
    assert (p' = p) as -> by lia. congruence.
  - eapply find_none in Hf.
    + by rewrite bool_decide_eq_false in Hf.
    + apply list_elem_of_In. rewrite elem_of_reverse. by eapply list_elem_of_lookup_2.
Qed.

Lemma modules_lookup_absent g i :
  (∀ a, a ∈ g → id a ≠ i) → modules_lookup g i = None.
Proof.
  intros Hno. unfold modules_lookup.
  destruct (List.find _ _) as [c|] eqn:Hf; [|done].
  apply find_some in Hf as [Hin Hb]. apply bool_decide_eq_true in Hb.
  apply list_elem_of_In in Hin. rewrite elem_of_reverse in Hin. by apply Hno in Hin.
Qed.

(** X1.  A graph that [createGraph] returns has one asset for the entry and
    one for each import specifier of its assets, occurrences counted; [ID]
    has advanced by that number; and its last asset imports nothing. *)
Theorem graph_size fuel entry first g final :
  createGraph fuel entry first = Returned g final →
  length g = S (sum_list (widths g)) ∧
  final = first + S (sum_list (widths g)) ∧
  ∃ a, last g = Some a ∧ dependencies a = [].
Proof.
  intros Hg. pose proof (createGraph_forward _ _ _ _ _ Hg) as Hfw.
  destruct (createGraph_invariant _ _ _ _ _ Hg) as ([_ _ Hlen _ _ _] & -> & _).
  assert (Hsize : length g = S (sum_list (widths g))).
  { rewrite Hlen at 1. unfold offset. by rewrite take_ge by by rewrite widths_length. }
  split_and!; [done|lia|].
  destruct (lookup_lt_is_Some_2 g (pred (length g)) ltac:(lia)) as [a Ha].
  exists a. split; [by rewrite last_lookup|].
  pose proof (offset_S _ _ _ Ha) as HS.
  pose proof (Hfw (pred (length g)) ltac:(lia)) as Hk.
  replace (S (pred (length g))) with (length g) in HS by lia.
  apply nil_length_inv. lia.
Qed.

(** X2.  Every asset of a returned graph holds what its own file compiles
    to (the import specifiers of the file as dependencies, its transform as
    code) and has its mapping set, so that [bundle] prints a table for it. *)
Theorem graph_complete fuel entry first g final :
  createGraph fuel entry first = Returned g final →
  Forall (λ a, built a ∧
               ∃ table, mapping a = Some table ∧
                        stringify_mapping (mapping a) = JSON_stringify table) g.
Proof.
  intros (Hinv & _)%createGraph_invariant. apply Forall_lookup. intros k a Hk.
  split.
  - destruct Hinv as [_ _ _ Hbuilt _ _]. rewrite Forall_lookup in Hbuilt. by eapply Hbuilt.
  - rewrite (graph_mapping _ _ _ _ Hinv Hk). by eexists.
Qed.

(** X3.  In a returned graph the keys of the mapping of an asset are its
    import specifiers other than [__proto__], each once: as sets the two are
    equal when no specifier is [__proto__], and there are never more keys than
    specifiers. *)
Theorem mapping_keys_exact fuel entry first g final a :
  createGraph fuel entry first = Returned g final → a ∈ g →
  ∃ table,
    mapping a = Some table ∧
    NoDup (keys table) ∧
    list_to_set (keys table) =@{gset string}
      list_to_set (dependencies a) ∖ {[proto_key]} ∧
    (proto_key ∉ dependencies a →
     list_to_set (keys table) =@{gset string} list_to_set (dependencies a)) ∧
    length (keys table) ≤ length (dependencies a).
Proof.
  intros Hg Ha. destruct (mapping_keys _ _ _ _ _ _ Hg Ha) as (table & Hm & Hnd & Hkeys).
  exists table. split_and!; [done..| | |].
  - by eapply mapping_keys_set.
  - intros Hno. apply set_eq. intros s. rewrite !elem_of_list_to_set, Hkeys.
    split; [tauto|]. intros Hs. split; [done|]. by intros ->.
  - apply submseteq_length, NoDup_submseteq; [done|]. intros s Hs. by apply Hkeys.
Qed.

(** Where an entry of a mapping leads. *)
Lemma mapping_target fuel entry first g final k a table s v :
  createGraph fuel entry first = Returned g final →
  g !! k = Some a → mapping a = Some table → own_get s table = Some v →
  s ∈ dependencies a ∧ id a < v ∧
  ∃ c, c ∈ g ∧ id c = v ∧
       modules_lookup g v = Some c ∧
       filename c = path_join (path_dirname (filename a)) s ∧
       built c.
Proof.
  intros Hg Hk Hm Hget.
  pose proof (createGraph_forward _ _ _ _ _ Hg) as Hfw.
  destruct (createGraph_invariant _ _ _ _ _ Hg) as (Hinv & _).
  rewrite (graph_mapping _ _ _ _ Hinv Hk) in Hm. injection Hm as <-.
  apply own_get_fill_Some in Hget as (_ & j & Hlast & ->).
  apply last_index_Some in Hlast as [Hj _].
  destruct (graph_child _ _ _ _ _ _ Hinv Hk Hj) as (c & Hc & Hid & Hf & Hb).
  assert (Hids : id <$> g = seq first (length g)) by by destruct Hinv.
  split_and!.
  - by eapply list_elem_of_lookup_2.
  - rewrite (ids_lookup _ _ _ _ Hids Hk).
    pose proof (Hfw k ltac:(by eapply lookup_lt_Some)). lia.
  - exists c. split_and!; [by eapply list_elem_of_lookup_2|lia| |done..].
    replace (first + offset g k + j) with (id c) by lia.
    by eapply modules_lookup_graph.
Qed.

(** X4.  In a returned graph every entry of a mapping leads to a module:
    the value under a key [s] is the id of an asset of the graph, which the
    registry of the bundle finds under that id; the asset was built for [s]
    joined to the directory of the importing asset, and after it (its id is
    greater). *)
Theorem mapping_targets fuel entry first g final k a table s v :
  createGraph fuel entry first = Returned g final →
  g !! k = Some a → mapping a = Some table → own_get s table = Some v →
  s ∈ dependencies a ∧ id a < v ∧
  ∃ c, c ∈ g ∧ id c = v ∧
       modules_lookup g v = Some c ∧
       filename c = path_join (path_dirname (filename a)) s ∧
       built c.
Proof. apply mapping_target. Qed.

(** X5.  A returned graph is a tree: every asset but the entry is the child
    of one occurrence of one specifier of one asset, which comes before it in
    the graph, and it was built for that specifier joined to the directory of
    that asset. *)
Theorem graph_tree fuel entry first g final p c :
  createGraph fuel entry first = Returned g final →
  g !! p = Some c → 0 < p →
  ∃ k a j s,
    g !! k = Some a ∧ dependencies a !! j = Some s ∧
    p = offset g k + j ∧ k < p ∧
    filename c = path_join (path_dirname (filename a)) s ∧
    ∀ k' a' j', g !! k' = Some a' → j' < length (dependencies a') →
                p = offset g k' + j' → k' = k ∧ j' = j.
Proof.
  intros Hg Hp Hpos.
  pose proof (createGraph_forward _ _ _ _ _ Hg) as Hfw.
  destruct (createGraph_invariant _ _ _ _ _ Hg) as (Hinv & _).
  assert (Hlen : length g = offset g (length g)) by by destruct Hinv.
  destruct (slot_parent g (length g) p) as (k & a & j & Hk & Ha & Hj & ->);
    [done|lia|rewrite <- Hlen; by eapply lookup_lt_Some|].
  destruct (lookup_lt_is_Some_2 (dependencies a) j Hj) as [s Hs].
  destruct (graph_child _ _ _ _ _ _ Hinv Ha Hs) as (c' & Hc' & _ & Hf & _).
  rewrite Hp in Hc'. injection Hc' as <-.
  exists k, a, j, s. split_and!; [done..| |done|].
  - pose proof (Hfw k Hk). lia.
  - intros k' a' j' Ha' Hj' Heq. by eapply slot_inj.
Qed.

(** X6.  There is no cycle detection: when every file that the build can
    reach from the entry compiles and has at least one import, [createGraph]
    neither returns nor throws, however much fuel it is given. *)
Theorem cyclic_imports_diverge (reachable : string → Prop) entry :
  reachable entry →
  (∀ p, reachable p →
     ∃ s specifiers c,
       compiles p (s :: specifiers) c ∧
       ∀ s', s' ∈ s :: specifiers → reachable (path_join (path_dirname p) s')) →
  ∀ fuel n, createGraph fuel entry n = Running.
Proof.
  intros Hentry Hclosed.
  assert (Hchildren : ∀ dir ss table n,
    (∀ s, s ∈ ss → reachable (path_join dir s)) →
    ∃ r, build_children dir ss table n = Returned r (n + length ss)).
  { intros dir ss. induction ss as [|s ss IH]; intros table n Hss.
    - eexists. simpl. unfold mret, M_ret. f_equal. lia.
    - destruct (Hclosed _ (Hss s ltac:(by left))) as (s0 & sp & c & Hc & _).
      rewrite build_children_cons, (createAsset_compiles _ _ _ n Hc). cbn [id].
      destruct (IH (obj_set s n table) (S n)) as [r ->].
      { intros s' Hs'. apply Hss. by right. }
      eexists. simpl. f_equal. lia. }
  assert (Hloop : ∀ fuel i q n,
    Forall (λ a, reachable (filename a) ∧ built a) q → i < length q →
    for_of fuel i q n = Running).
  { intros fuel. induction fuel as [|fuel IH]; intros i q n Hq Hi; [done|].
    destruct (lookup_lt_is_Some_2 q i Hi) as [a Ha].
    rewrite (for_of_S _ _ _ _ _ Ha), (turn_unfold _ _ _ _ Ha).
    pose proof (proj1 (Forall_lookup _ _) Hq i a Ha) as [Hr Hb].
    destruct (Hclosed _ Hr) as (s & sp & c & Hc & Hnext).
    destruct (compiles_functional _ _ _ _ _ Hb Hc) as [Hdeps _].
    destruct (Hchildren (path_dirname (filename a)) (dependencies a) [] n) as [r Er].
    { intros s' Hs'. apply Hnext. by rewrite <- Hdeps. }
    rewrite Er.
    apply build_children_Returned in Er as (_ & _ & Hcids & Hcb & _ & Hcf).
    assert (Hclen : length r.2 = length (dependencies a)).
    { by rewrite <- (length_fmap id), Hcids, length_seq. }
    apply IH.
    - apply Forall_app. split.
      + apply Forall_insert; [done|]. by split.
      + apply Forall_lookup. intros j child Hj. split.
        * assert (Hfj : (filename <$> r.2) !! j = Some (filename child))
            by by rewrite list_lookup_fmap, Hj.
          rewrite Hcf, list_lookup_fmap in Hfj.
          destruct (dependencies a !! j) as [s'|] eqn:Hs'; [|done].
          injection Hfj as <-. apply Hnext. rewrite <- Hdeps.
          by eapply list_elem_of_lookup_2.
        * rewrite Forall_lookup in Hcb. by eapply Hcb.
    - rewrite length_app, length_insert, Hclen, Hdeps. simpl. lia. }
  intros fuel n. unfold createGraph.
  destruct (Hclosed _ Hentry) as (s & sp & c & Hc & _).
  rewrite (bind_Returned _ _ _ _ _ (createAsset_compiles _ _ _ n Hc)).
  apply Hloop; [|simpl; lia].
  constructor; [|constructor]. split; [done|exact Hc].
Qed.

(** X13.  In a returned graph every import specifier of an asset, other than
    [__proto__], is a key of its mapping, and the module found under it in
    the registry of the bundle is one built for that specifier joined to the
    directory of the asset: [localRequire] on an imported specifier always
    reaches a module. *)
Theorem imported_specifier_resolves fuel entry first g final k a s :
  createGraph fuel entry first = Returned g final →
  g !! k = Some a → s ∈ dependencies a → s ≠ proto_key →
  ∃ table v c,
    mapping a = Some table ∧ own_get s table = Some v ∧
    modules_lookup g v = Some c ∧
    filename c = path_join (path_dirname (filename a)) s.
Proof.
  intros Hg Hk Hin Hs.
  destruct (createGraph_invariant _ _ _ _ _ Hg) as (Hinv & _).
  pose proof (graph_mapping _ _ _ _ Hinv Hk) as Hm.
  destruct (last_index s (dependencies a)) as [j|] eqn:Hlast;
    [|by apply last_index_None in Hlast].
  assert (Hget : own_get s (fill (dependencies a) (first + offset g k) [])
                 = Some (first + offset g k + j)).
  { by rewrite own_get_fill, Hlast by done. }
  destruct (mapping_target _ _ _ _ _ _ _ _ _ _ Hg Hk Hm Hget)
    as (_ & _ & c & _ & _ & Hl & Hf & _).
  by exists (fill (dependencies a) (first + offset g k) []), (first + offset g k + j), c.
Qed.

(** ** Failures other than a missing file *)

Lemma build_children_fails_with dir before s after table n e n2 :
  Forall (λ d, ∃ specifiers c, compiles (path_join dir d) specifiers c) before →
  createAsset (path_join dir s) (n + length before) = Threw e n2 →
  build_children dir (before ++ s :: after) table n = Threw e n2.
Proof.
  intros Hbefore. revert table n.
  induction Hbefore as [|d before (specifiers & c & Hd) _ IH]; intros table n Hs.
  - simpl app. rewrite build_children_cons.
    simpl in Hs. rewrite Nat.add_0_r in Hs. by rewrite Hs.
  - simpl app. rewrite build_children_cons, (createAsset_compiles _ _ _ n Hd).
    rewrite IH; [done|]. simpl in Hs. by replace (S n + length before)
      with (n + S (length before)) by lia.
Qed.

(** X7.  The build stops at the first file that fails and throws what that
    file's [createAsset] throws.  When the specifiers before [s] in the asset
    that the loop has reached have compiled and the file of [s] loads: a
    text that does not parse gives the parser's error, and a tree that
    [traverse] rejects gives the error of [traverse], both with [ID] advanced
    by the assets built so far; a tree that is traversed and cannot be
    transformed gives the transform's error, with [ID] advanced once more
    (the id of the failed asset is used up). *)
Theorem first_error_is_reported k entry n q n1 a before s after text fuel :
  queue_after k entry n = Returned q n1 → q !! k = Some a →
  dependencies a = before ++ s :: after →
  Forall (λ d, ∃ specifiers c,
            compiles (path_join (path_dirname (filename a)) d) specifiers c) before →
  readFileGuessExtension (path_join (path_dirname (filename a)) s) = Some text →
  k < fuel →
  (∀ msg, babylon_parse text = inl msg →
     createGraph fuel entry n = Threw (SyntaxError msg) (n1 + length before)) ∧
  (∀ tree msg, babylon_parse text = inr tree → import_sources tree = inl msg →
     createGraph fuel entry n = Threw (TraverseError msg) (n1 + length before)) ∧
  (∀ tree sources msg,
     babylon_parse text = inr tree → import_sources tree = inr sources →
     transformFromAstSync tree = inl msg →
     createGraph fuel entry n = Threw (TransformError msg) (S (n1 + length before))).
Proof.
  intros Hq Hk Hdeps Hbefore Htext Hfuel. split_and!.
  - intros msg Hp. eapply createGraph_fails_at; [done..| |done].
    rewrite Hdeps. apply build_children_fails_with; [done|].
    by rewrite createAsset_unfold, Htext, Hp.
  - intros tree msg Hp Hs. eapply createGraph_fails_at; [done..| |done].
    rewrite Hdeps. apply build_children_fails_with; [done|].
    by rewrite createAsset_unfold, Htext, Hp, Hs.
  - intros tree sources msg Hp Hs Ht. eapply createGraph_fails_at; [done..| |done].
    rewrite Hdeps. apply build_children_fails_with; [done|].
    by rewrite createAsset_unfold, Htext, Hp, Hs, Ht.
Qed.

(** ** The loader on a name that matches nothing, and on an empty name *)

(** X8.  When the directory can be listed and none of its entries starts
    with the base name, the result is not [null] outright: the file read is
    the one called [undefined] in that directory, and the result is its text
    if there is one. *)
Theorem no_match_reads_undefined p files :
  readdirSync (path_dirname p) = Some files →
  Forall (λ y, String.prefix (path_base p) y = false) files →
  readFileGuessExtension p = readFileSync (path_dirname p +:+ "/undefined").
Proof.
  intros Hdir Hnone. unfold readFileGuessExtension. rewrite Hdir.
  by rewrite (proj2 (find_prefixed_None _ _) Hnone).
Qed.

(** X9.  A path whose base name is empty (the root, say) matches every
    entry: the file read is the first entry of the listing, whatever its
    name. *)
Theorem empty_base_reads_first_entry p x rest :
  path_base p = "" →
  readdirSync (path_dirname p) = Some (x :: rest) →
  readFileGuessExtension p = readFileSync (path_dirname p +:+ "/" +:+ x).
Proof.
  intros Hbase Hdir. unfold readFileGuessExtension. rewrite Hdir, Hbase.
  unfold find_prefixed. simpl. by destruct x.
Qed.

End GraphProperties.

(** * Further properties of the loader runtime *)

Section BundleProperties.
Context `{Host}.
Variable sem : string → nat → nat → body.


(** X10.  [require(0)], the entry point of every bundle, finds the entry
    asset only in the bundle of a build that started with [ID = 0].  The
    bundle of a build that started later has no module 0: executing it throws
    at once, before any module body is entered. *)
Theorem entry_point_needs_fresh_counter fuel entry first g final :
  createGraph fuel entry first = Returned g final →
  (first = 0 →
   ∃ a, g !! 0 = Some a ∧ filename a = entry ∧ modules_lookup g 0 = Some a) ∧
  (0 < first →
   ∀ fuel', run_bundle sem (S fuel') g = RtThrew NotIterable realm0).
Proof.
  intros (Hinv & _ & a & Ha & Hf)%createGraph_invariant.
  assert (Hids : id <$> g = seq first (length g)) by by destruct Hinv.
  split.
  - intros ->. exists a. split_and!; [done..|].
    replace 0 with (id a) at 1; [by eapply modules_lookup_graph|].
    by rewrite (ids_lookup _ _ _ _ Hids Ha).
  - intros Hpos fuel'. unfold run_bundle. simpl.
    rewrite modules_lookup_absent; [done|].
    intros b (p & Hp)%list_elem_of_lookup.
    rewrite (ids_lookup _ _ _ _ Hids Hp). lia.
Qed.

(** A body that calls no [require] enters no other body and is never cut
    off by the nesting allowed. *)
Lemma exec_requires_nothing localRequire b σ :
  requires_nothing b →
  exec localRequire b σ ≠ RtRunning ∧
  ∀ σ', ends_in (exec localRequire b σ) σ' → executed σ' = executed σ.
Proof.
  revert σ.
  induction b as [| |e|block IHb handler IHh k IHk|p k IH|o p k IH|o p v k IH|o p k IH
                   |line k IH];
    intros σ Hb; simpl.
  - split; [done|]. by intros σ' <-.
  - done.
  - split; [done|]. by intros σ' <-.
  - destruct Hb as (Hbb & Hbh & Hbk).
    destruct (IHb σ Hbb) as [Hnb Heb].
    destruct (exec localRequire block σ) as [u σ1|e σ1| |] eqn:Eb; [| |done..].
    + destruct (IHk σ1 Hbk) as [Hnk Hek]. split; [done|].
      intros σ' Hk. rewrite (Hek _ Hk). by apply Heb.
    + destruct (IHh e σ1 (Hbh e)) as [Hnh Heh].
      destruct (exec localRequire (handler e) σ1) as [u σ2|e' σ2| |] eqn:Eh; [| |done..].
      * destruct (IHk σ2 Hbk) as [Hnk Hek]. split; [done|].
        intros σ' Hk. rewrite (Hek _ Hk), (Heh σ2 eq_refl). by apply Heb.
      * split; [done|]. intros σ' <-. rewrite (Heh σ2 eq_refl). by apply Heb.
  - done.
  - destruct o as [| | |l]; simpl.
    + split; [done|]. by intros σ' <-.
    + apply IH, Hb.
    + apply IH, Hb.
    + apply IH, Hb.
  - destruct o as [| | |l]; simpl; [by split; [|intros σ' <-]..|].
    destruct (IH (write l p v σ) Hb) as [Hn He]. split; [done|].
    intros σ' Hk. by rewrite (He _ Hk).
  - destruct o as [| |s|l]; simpl.
    + split; [done|]. by intros σ' <-.
    + by apply IH.
    + destruct (string_prop s p); [|by apply IH]. split; [done|]. by intros σ' <-.
    + destruct (IH (remove l p σ) Hb) as [Hn He]. split; [done|].
      intros σ' Hk. by rewrite (He _ Hk).
  - destruct (IH (print line σ) Hb) as [Hn He]. split; [done|].
    intros σ' Hk. by rewrite (He _ Hk).
Qed.

(** X11.  A file without imports, whatever the value of [ID]: the graph is
    that one asset with an empty mapping.  Built first ([ID = 0]) and with a
    code that calls no [require], its bundle needs no nesting of calls, and
    whenever its run ends, by returning or by a throw of the body, the body
    of module 0 has been entered once and no other; what it returns is the
    [exports] of the module object of that one call. *)
Theorem no_imports_runs_once entry c fuel fuel' :
  compiles entry [] c →
  (∀ n, createGraph (2 + fuel) entry n =
        Returned [mkAsset n entry [] c (Some [])] (S n)) ∧
  ((∀ module exports, requires_nothing (sem c module exports)) →
   run_bundle sem (S fuel') [mkAsset 0 entry [] c (Some [])] ≠ RtRunning ∧
   (∀ v σ, run_bundle sem (S fuel') [mkAsset 0 entry [] c (Some [])] = RtReturned v σ →
           executed σ = [0] ∧ v = read 1 "exports" σ) ∧
   (∀ e σ, run_bundle sem (S fuel') [mkAsset 0 entry [] c (Some [])] = RtThrew e σ →
           executed σ = [0])).
Proof.
  intros Hc. split.
  - intros n. unfold createGraph.
    rewrite (bind_Returned _ _ _ _ _ (createAsset_compiles _ _ _ n Hc)).
    apply (for_of_more_fuel 2 fuel).
    erewrite for_of_S by done. rewrite turn_unfold by done. cbn -[for_of].
    by rewrite for_of_end.
  - intros Hbody. unfold run_bundle.
    rewrite (require_S sem _ _ _ (mkAsset 0 entry [] c (Some []))) by done.
    cbv zeta. cbn [mapping code id].
    destruct (exec_requires_nothing
                (localRequire_of (require sem fuel' [mkAsset 0 entry [] c (Some [])]) (Some []))
                (sem c (S (next realm0)) (next realm0))
                (entered 0 (alloc {[ "exports" := VObject (next realm0) ]}
                                  (alloc ∅ realm0).2).2)
                (Hbody _ _)) as [Hn He].
    destruct (exec _ _ _) as [u σ'|e σ'| |]; [| |done..].
    + split_and!; [done| |done]. intros v σ [= <- <-]. split; [|done].
      by rewrite (He σ' eq_refl).
    + split_and!; [done|done|]. intros e' σ [= <- <-]. by rewrite (He σ' eq_refl).
Qed.



End BundleProperties.

(** * The further properties at work on the small host *)

Module MoreExamples.
Import Demo.

Ltac compiles_here :=
  do 2 eexists; split_and!; vm_compute; reflexivity.

Lemma chain_built :
  createGraph (H := host chain) 10 "./entry.js" 0 = Returned chain_assets 3.
Proof. vm_compute. reflexivity. Qed.

Lemma diamond_built :
  createGraph (H := host diamond) 10 "./entry.js" 0 = Returned diamond_assets 3.
Proof. vm_compute. reflexivity. Qed.

Lemma repeated_built :
  createGraph (H := host repeated) 10 "./entry.js" 0 = Returned repeated_assets 3.
Proof. vm_compute. reflexivity. Qed.

(** X1 on the chain project: three assets for two imports. *)
Lemma graph_size_witness :
  length chain_assets = S (sum_list (widths chain_assets)) ∧
  3 = 0 + S (sum_list (widths chain_assets)) ∧
  ∃ a, last chain_assets = Some a ∧ dependencies a = [].
Proof. exact (graph_size (H := host chain) 10 "./entry.js" 0 chain_assets 3 chain_built). Defined.

(** X2 on the chain project. *)
Lemma graph_complete_witness :
  Forall (λ a, built (H := host chain) a ∧
               ∃ table, mapping a = Some table ∧
                        stringify_mapping (H := host chain) (mapping a)
                        = JSON_stringify (Host := host chain) table)
         chain_assets.
Proof. exact (graph_complete (H := host chain) 10 "./entry.js" 0 chain_assets 3 chain_built). Defined.

(** X3 on the project that imports "./a" twice: one key for two specifiers. *)
Lemma mapping_keys_exact_witness :
  ∃ table,
    mapping repeated_entry = Some table ∧
    NoDup (keys table) ∧
    list_to_set (keys table) =@{gset string}
      list_to_set (dependencies repeated_entry) ∖ {[proto_key]} ∧
    (proto_key ∉ dependencies repeated_entry →
     list_to_set (keys table) =@{gset string} list_to_set (dependencies repeated_entry)) ∧
    length (keys table) ≤ length (dependencies repeated_entry).
Proof.
  apply (mapping_keys_exact (H := host repeated) 10 "./entry.js" 0 repeated_assets 3
           repeated_entry repeated_built).
  by left.
Defined.

(** X4 on the diamond project: "./lib/../shared" leads to module 2. *)
Lemma mapping_targets_witness :
  "./lib/../shared" ∈ dependencies diamond_entry ∧ id diamond_entry < 2 ∧
  ∃ c, c ∈ diamond_assets ∧ id c = 2 ∧
       modules_lookup diamond_assets 2 = Some c ∧
       filename c = "shared" ∧
       built (H := host diamond) c.
Proof.
  exact (mapping_targets (H := host diamond) 10 "./entry.js" 0 diamond_assets 3
           0 diamond_entry [("./shared", 1); ("./lib/../shared", 2)]
           "./lib/../shared" 2 diamond_built eq_refl eq_refl eq_refl).
Defined.

(** X5 on the chain project: the asset at index 2 is the child of the first
    specifier of the asset at index 1. *)
Lemma graph_tree_witness :
  ∃ k a j s,
    chain_assets !! k = Some a ∧ dependencies a !! j = Some s ∧
    2 = offset chain_assets k + j ∧ k < 2 ∧
    "b" = path_join (Host := host chain) (path_dirname (Host := host chain) (filename a)) s ∧
    ∀ k' a' j', chain_assets !! k' = Some a' → j' < length (dependencies a') →
                2 = offset chain_assets k' + j' → k' = k ∧ j' = j.
Proof.
  apply (graph_tree (H := host chain) 10 "./entry.js" 0 chain_assets 3 2
           (mkAsset 2 "b" [] (text ["log b"]) (Some [])) chain_built eq_refl).
  lia.
Defined.

(** X6 on a file that imports itself. *)
Lemma cyclic_imports_diverge_witness :
  createGraph (H := host cycle) 1000 "./entry.js" 0 = Running.
Proof.
  apply (cyclic_imports_diverge (H := host cycle)
           (λ p, p = "./entry.js" ∨ p = "entry.js") "./entry.js").
  - by left.
  - intros p [->| ->]; exists "./entry.js", [], (text ["require ./entry.js"; "log again"]).
    + split; [compiles_here|]. intros s' ->%list_elem_of_singleton. by right.
    + split; [compiles_here|]. intros s' ->%list_elem_of_singleton. by right.
Defined.

(** X7: "./a" does not parse and is the second import of [main.js];
    "./dup" parses, cannot be traversed and is the second import of
    [top.js]. *)
Lemma first_error_is_reported_witness :
  createGraph (H := host faulty) 10 "./main.js" 0 = Threw (SyntaxError "Unexpected token") 2 ∧
  createGraph (H := host faulty) 10 "./top.js" 0 =
    Threw (TraverseError "Duplicate declaration") 2.
Proof.
  split.
  - refine (proj1 (first_error_is_reported (H := host faulty) 0 "./main.js" 0
                     [mkAsset 0 "./main.js" ["./leaf"; "./a"; "./b"]
                              (text ["require ./leaf"; "require ./a"; "require ./b"]) None]
                     1 _ ["./leaf"] "./a" ["./b"] (text ["@"]) 10 _ eq_refl eq_refl _ _ _)
              "Unexpected token" _).
    + vm_compute. reflexivity.
    + constructor; [|constructor]. do 2 eexists. compiles_here.
    + vm_compute. reflexivity.
    + lia.
    + vm_compute. reflexivity.
  - refine (proj1 (proj2 (first_error_is_reported (H := host faulty) 0 "./top.js" 0
                     [mkAsset 0 "./top.js" ["./leaf"; "./dup"]
                              (text ["require ./leaf"; "require ./dup"]) None]
                     1 _ ["./leaf"] "./dup" [] (text ["&"]) 10 _ eq_refl eq_refl _ _ _))
              ["&"] "Duplicate declaration" _ _).
    + vm_compute. reflexivity.
    + constructor; [|constructor]. do 2 eexists. compiles_here.
    + vm_compute. reflexivity.
    + lia.
    + vm_compute. reflexivity.
    + vm_compute. reflexivity.
Defined.

(** X8 on a directory that holds a file called [undefined]. *)
Lemma no_match_reads_undefined_witness :
  readFileGuessExtension (H := host stray) "./a" = Some (text ["log stray"]).
Proof.
  rewrite (no_match_reads_undefined (H := host stray) "./a" ["b.js"; "undefined"]).
  - vm_compute. reflexivity.
  - vm_compute. reflexivity.
  - repeat constructor.
Defined.

(** X9 on the root directory. *)
Lemma empty_base_reads_first_entry_witness :
  readFileGuessExtension (H := host root) "/" = Some (text ["log boot"]).
Proof.
  rewrite (empty_base_reads_first_entry (H := host root) "/" "boot.js" ["etc"]).
  - vm_compute. reflexivity.
  - vm_compute. reflexivity.
  - vm_compute. reflexivity.
Defined.

(** X10 on the chain project built when [ID] is 3. *)
Lemma entry_point_needs_fresh_counter_witness :
  ∃ g,
    createGraph (H := host chain) 10 "./entry.js" 3 = Returned g 6 ∧
    run_bundle sem 10 g = RtThrew NotIterable realm0.
Proof.
  eexists. split; [vm_compute; reflexivity|].
  refine (proj2 (entry_point_needs_fresh_counter (H := host chain) sem
                   10 "./entry.js" 3 _ 6 _) _ 9).
  - vm_compute. reflexivity.
  - lia.
Defined.

(** X11 on a file without imports. *)
Lemma no_imports_runs_once_witness :
  createGraph (H := host single) 10 "./entry.js" 0 =
    Returned [mkAsset 0 "./entry.js" [] (text ["log only"; "export x"]) (Some [])] 1 ∧
  run_bundle sem 5 [mkAsset 0 "./entry.js" [] (text ["log only"; "export x"]) (Some [])]
    ≠ RtRunning ∧
  (∀ v σ,
     run_bundle sem 5 [mkAsset 0 "./entry.js" [] (text ["log only"; "export x"]) (Some [])]
       = RtReturned v σ → executed σ = [0] ∧ v = read 1 "exports" σ) ∧
  (∀ e σ,
     run_bundle sem 5 [mkAsset 0 "./entry.js" [] (text ["log only"; "export x"]) (Some [])]
       = RtThrew e σ → executed σ = [0]).
Proof.
  destruct (no_imports_runs_once (H := host single) sem "./entry.js"
              (text ["log only"; "export x"]) 8 4) as [Hbuild Hrun].
  - compiles_here.
  - split; [apply Hbuild|]. apply Hrun.
    intros module exports. vm_compute. exact I.
Defined.


(** X13 on the chain project: "./a" in the entry leads to the module of [a]. *)
Lemma imported_specifier_resolves_witness :
  ∃ table v c,
    mapping (mkAsset 0 "./entry.js" ["./a"] (text ["require ./a"; "log entry"])
                     (Some [("./a", 1)])) = Some table ∧
    own_get "./a" table = Some v ∧
    modules_lookup chain_assets v = Some c ∧
    filename c = "a".
Proof.
  apply (imported_specifier_resolves (H := host chain) 10 "./entry.js" 0 chain_assets 3
           0 _ "./a" chain_built eq_refl).
  - by left.
  - discriminate.
Defined.

End MoreExamples.
